(** * UniFormGen: the form generator page ([src/app/_client/home-page/index.tsx])

    A shallow embedding of the page's data model ([Field], [FormData]), of
    the structural [schema], of [GeneratedPreview] (the projection
    [validFields], the [defaultValues] reduction, the [required] option of
    every registered control) and of [HomePage] (the seed definition, the
    field array and the export path [onSubmit]), followed by the properties
    the specification states about them. *)

From Stdlib Require Import List String Ascii NArith Lia Bool.
From Stdlib Require DecimalString DecimalNat.
From stdpp Require Import base list gmap.
Import ListNotations.

Set Warnings "-register-all".

Local Open Scope N_scope.

(** ** JavaScript strings

    A JavaScript string is a finite sequence of UTF-16 code units; a code
    unit is kept as an [N] below 65536. *)
Module JS.

Abbreviation code_unit := N (only parsing).
Abbreviation jsstring := (list N) (only parsing).

(** Source literals are written as UTF-8 text; [utf16] decodes the bytes of
    such a literal into code units (a supplementary code point becomes a
    surrogate pair). *)
Definition cont (b : N) : N := N.land b 63.

Definition of_code_point (cp : N) : jsstring :=
  if cp <? 65536 then [cp]
  else let v := cp - 65536 in [55296 + N.shiftr v 10; 56320 + N.land v 1023].

Fixpoint utf16 (bytes : list N) : jsstring :=
  match bytes with
  | [] => []
  | b :: rest =>
      if b <? 128 then b :: utf16 rest
      else if b <? 224 then
        match rest with
        | b1 :: rest1 =>
            of_code_point (N.lor (N.shiftl (N.land b 31) 6) (cont b1)) ++ utf16 rest1
        | _ => [65533]
        end
      else if b <? 240 then
        match rest with
        | b1 :: b2 :: rest2 =>
            of_code_point
              (N.lor (N.shiftl (N.land b 15) 12) (N.lor (N.shiftl (cont b1) 6) (cont b2)))
              ++ utf16 rest2
        | _ => [65533]
        end
      else
        match rest with
        | b1 :: b2 :: b3 :: rest3 =>
            of_code_point
              (N.lor (N.shiftl (N.land b 7) 18)
                 (N.lor (N.shiftl (cont b1) 12) (N.lor (N.shiftl (cont b2) 6) (cont b3))))
              ++ utf16 rest3
        | _ => [65533]
        end
  end.

Definition js (s : string) : jsstring :=
  utf16 (map N_of_ascii (list_ascii_of_string s)).
Arguments js s%_string.

(** [String.prototype.length]. *)
Definition jslength (s : jsstring) : nat := length s.

(** The code units [String.prototype.trim] strips: WhiteSpace and
    LineTerminator of ECMA-262 (TAB, LF, VT, FF, CR, SP, NBSP, U+1680,
    U+2000..U+200A, LS, PS, U+202F, U+205F, U+3000 and the BOM). *)
Definition isWhiteSpace (c : code_unit) : bool :=
  ((9 <=? c) && (c <=? 13)) || (c =? 32) || (c =? 160) || (c =? 5760)
  || ((8192 <=? c) && (c <=? 8202)) || (c =? 8232) || (c =? 8233)
  || (c =? 8239) || (c =? 8287) || (c =? 12288) || (c =? 65279).

Fixpoint trimStart (s : jsstring) : jsstring :=
  match s with
  | [] => []
  | c :: s' => if isWhiteSpace c then trimStart s' else s
  end.

Definition trimEnd (s : jsstring) : jsstring := rev (trimStart (rev s)).

(** [String.prototype.trim]. *)
Definition trim (s : jsstring) : jsstring := trimEnd (trimStart s).

(** ToBoolean of a string: only the empty string is falsy. *)
Definition truthy (s : jsstring) : bool :=
  match s with [] => false | _ :: _ => true end.

Fixpoint startsWith (s search : jsstring) {struct search} : bool :=
  match search with
  | [] => true
  | a :: search' =>
      match s with
      | [] => false
      | b :: s' => (a =? b) && startsWith s' search'
      end
  end.

(** [String.prototype.includes] (from position 0): some position of [s]
    starts an occurrence of [search]. *)
Fixpoint includes (s search : jsstring) : bool :=
  startsWith s search
  || match s with
     | [] => false
     | _ :: s' => includes s' search
     end.

(** A string is blank when every code unit of it is white space. *)
Definition blank (s : jsstring) : bool := forallb isWhiteSpace s.

End JS.
Import JS.


(** ** JavaScript values

    The values the page hands to its libraries: strings, arrays and plain
    objects, whose properties are kept in insertion order (no key of the
    page is an array index, which JavaScript would enumerate first). *)
Module Value.

Inductive value :=
| VUndefined
| VString (s : jsstring)
| VArray (items : list value)
| VObject (props : list (jsstring * value)).

(** [key in obj] and [obj[key]] on the property list of a plain object. *)
Fixpoint hasProp (key : jsstring) (props : list (jsstring * value)) : bool :=
  match props with
  | [] => false
  | (k, _) :: rest => if decide (k = key) then true else hasProp key rest
  end.

Fixpoint getProp (key : jsstring) (props : list (jsstring * value)) : value :=
  match props with
  | [] => VUndefined
  | (k, v) :: rest => if decide (k = key) then v else getProp key rest
  end.

Definition isUndefined (v : value) : bool :=
  match v with VUndefined => true | _ => false end.

Definition keys (v : value) : list jsstring :=
  match v with VObject props => map fst props | _ => [] end.

End Value.
Import Value.

(** ** The zod schemas the page builds

    Modelled from the spec: the combinators of the zod library, which is not
    under src/: [z.string()], [.min(n, message)], [z.enum([...])],
    [z.array(...)] and [z.object({...})], with the parsing of a value
    against them. Every issue is collected with the path of the offending
    value, an object is rebuilt from the keys of its shape, in the order of
    the shape (keys outside the shape are stripped), and an array is parsed
    element by element. *)
Module Zod.

Inductive PathSegment := Key (k : jsstring) | Index (i : nat).

Inductive IssueCode := invalid_type | too_small | invalid_enum_value.

(** [message] is the message given in the schema, when there is one. *)
Record ZodIssue := {
  code : IssueCode;
  path : list PathSegment;
  message : option jsstring
}.

Inductive StringCheck := Min (value : nat) (message : jsstring).

Inductive ZodType :=
| ZString (checks : list StringCheck)
| ZEnum (options : list jsstring)
| ZArray (element : ZodType)
| ZObject (shape : list (jsstring * ZodType)).

Definition runCheck (p : list PathSegment) (data : jsstring) (c : StringCheck)
  : list ZodIssue :=
  match c with
  | Min n msg =>
      if (jslength data <? n)%nat
      then [{| code := too_small; path := p; message := Some msg |}]
      else []
  end.

Definition typeIssue (p : list PathSegment) : value * list ZodIssue :=
  (VUndefined, [{| code := invalid_type; path := p; message := None |}]).

(** [parse t p input]: the parsed value and the issues found, [p] being the
    path of [input] in the value under validation. *)
Fixpoint parse (t : ZodType) (p : list PathSegment) (input : value) {struct t}
  : value * list ZodIssue :=
  match t with
  | ZString checks =>
      match input with
      | VString data => (input, concat (map (runCheck p data) checks))
      | _ => typeIssue p
      end
  | ZEnum options =>
      match input with
      | VString data =>
          if bool_decide (data ∈ options) then (input, [])
          else (VUndefined,
                [{| code := invalid_enum_value; path := p; message := None |}])
      | _ => typeIssue p
      end
  | ZArray element =>
      match input with
      | VArray items =>
          let parsed :=
            imap (fun i item => parse element (p ++ [Index i]) item) items in
          (VArray (map fst parsed), concat (map snd parsed))
      | _ => typeIssue p
      end
  | ZObject shape =>
      match input with
      | VObject props =>
          let parsed :=
            (fix parseShape (sh : list (jsstring * ZodType))
               : list (jsstring * value) * list ZodIssue :=
               match sh with
               | [] => ([], [])
               | (key, keyValidator) :: rest =>
                   let '(v, issues) :=
                     parse keyValidator (p ++ [Key key]) (getProp key props) in
                   let '(pairs, issues') := parseShape rest in
                   ((if negb (isUndefined v) || hasProp key props
                     then (key, v) :: pairs else pairs),
                    issues ++ issues')
               end) shape in
          (VObject (fst parsed), snd parsed)
      | _ => typeIssue p
      end
  end.

Inductive SafeParseResult :=
| ParseSuccess (data : value)
| ParseError (issues : list ZodIssue).

Definition safeParse (t : ZodType) (input : value) : SafeParseResult :=
  match parse t [] input with
  | (data, []) => ParseSuccess data
  | (_, issues) => ParseError issues
  end.

End Zod.
Import Zod.

(** ** [JSON.stringify(value, null, space)] *)
Module JSON.

Definition hexDigit (n : N) : code_unit := if n <? 10 then 48 + n else 87 + n.

(** [\uXXXX], four lower-case hexadecimal digits. *)
Definition unicodeEscape (c : code_unit) : jsstring :=
  [92; 117; hexDigit (N.land (N.shiftr c 12) 15); hexDigit (N.land (N.shiftr c 8) 15);
   hexDigit (N.land (N.shiftr c 4) 15); hexDigit (N.land c 15)].

Definition isLeadSurrogate (c : code_unit) : bool := (55296 <=? c) && (c <=? 56319).
Definition isTrailSurrogate (c : code_unit) : bool := (56320 <=? c) && (c <=? 57343).

Definition escapeUnit (c : code_unit) : jsstring :=
  if c =? 8 then [92; 98]
  else if c =? 9 then [92; 116]
  else if c =? 10 then [92; 110]
  else if c =? 12 then [92; 102]
  else if c =? 13 then [92; 114]
  else if c =? 34 then [92; 34]
  else if c =? 92 then [92; 92]
  else if (c <? 32) || isLeadSurrogate c || isTrailSurrogate c then unicodeEscape c
  else [c].

Fixpoint escapeUnits (s : jsstring) : jsstring :=
  match s with
  | [] => []
  | c :: rest =>
      match rest with
      | d :: rest' =>
          if isLeadSurrogate c && isTrailSurrogate d
          then c :: d :: escapeUnits rest'
          else escapeUnit c ++ escapeUnits rest
      | [] => escapeUnit c
      end
  end.

(** QuoteJSONString. *)
Definition quote (s : jsstring) : jsstring := [34] ++ escapeUnits s ++ [34].

Fixpoint join (separator : jsstring) (parts : list jsstring) : jsstring :=
  match parts with
  | [] => []
  | [part] => part
  | part :: rest => part ++ separator ++ join separator rest
  end.

(** The text of an array or object from the texts of its members. *)
Definition wrap (opening closing : code_unit) (gap stepback : jsstring)
    (partial : list jsstring) : jsstring :=
  match partial with
  | [] => [opening; closing]
  | _ :: _ =>
      match gap with
      | [] => [opening] ++ join [44] partial ++ [closing]
      | _ :: _ =>
          let indent := stepback ++ gap in
          [opening; 10] ++ indent ++ join ([44; 10] ++ indent) partial
            ++ [10] ++ stepback ++ [closing]
      end
  end.

(** SerializeJSONProperty: [None] is JavaScript's [undefined]; a property
    whose value is [undefined] is left out of an object and written [null]
    in an array. *)
Fixpoint serialize (gap stepback : jsstring) (v : value) {struct v}
  : option jsstring :=
  match v with
  | VUndefined => None
  | VString s => Some (quote s)
  | VArray items =>
      let partial :=
        (fix elements (l : list value) : list jsstring :=
           match l with
           | [] => []
           | item :: rest =>
               match serialize gap (stepback ++ gap) item with
               | Some text => text
               | None => [110; 117; 108; 108]
               end :: elements rest
           end) items in
      Some (wrap 91 93 gap stepback partial)
  | VObject props =>
      let colon := match gap with [] => [58] | _ :: _ => [58; 32] end in
      let partial :=
        (fix members (l : list (jsstring * value)) : list jsstring :=
           match l with
           | [] => []
           | (key, item) :: rest =>
               match serialize gap (stepback ++ gap) item with
               | Some text => (quote key ++ colon ++ text) :: members rest
               | None => members rest
               end
           end) props in
      Some (wrap 123 125 gap stepback partial)
  end.

Definition stringify (v : value) (space : nat) : option jsstring :=
  serialize (repeat 32 (Nat.min space 10)) [] v.

End JSON.

(** ** The data model (lines 19-30) *)

Inductive FieldType := text | email | number.

Record Field := {
  name : jsstring;
  type : FieldType;
  label : jsstring;
  rules : jsstring;
  id : option jsstring
}.

Inductive ResolverKind := zod | joi.
Inductive UiLibKind := shadcn | mui | chakra.

Record FormData := {
  fields : list Field;
  resolver : ResolverKind;
  uiLib : UiLibKind
}.

#[global] Instance FieldType_eq_dec : EqDecision FieldType.
Proof. solve_decision. Defined.
#[global] Instance Field_eq_dec : EqDecision Field.
Proof. solve_decision. Defined.
#[global] Instance ResolverKind_eq_dec : EqDecision ResolverKind.
Proof. solve_decision. Defined.
#[global] Instance UiLibKind_eq_dec : EqDecision UiLibKind.
Proof. solve_decision. Defined.

(** The run-time values of the typed data. *)
Definition typeName (t : FieldType) : jsstring :=
  match t with text => js "text" | email => js "email" | number => js "number" end.

Definition resolverName (r : ResolverKind) : jsstring :=
  match r with zod => js "zod" | joi => js "joi" end.

Definition uiLibName (u : UiLibKind) : jsstring :=
  match u with shadcn => js "shadcn" | mui => js "mui" | chakra => js "chakra" end.

Definition fieldValue (f : Field) : value :=
  VObject ([(js "name", VString (name f)); (js "type", VString (typeName (type f)));
            (js "label", VString (label f)); (js "rules", VString (rules f))]
           ++ match id f with Some i => [(js "id", VString i)] | None => [] end).

Definition formValue (d : FormData) : value :=
  VObject [(js "fields", VArray (map fieldValue (fields d)));
           (js "resolver", VString (resolverName (resolver d)));
           (js "uiLib", VString (uiLibName (uiLib d)))].

(** ** [schema] (lines 32-43) *)

Definition fieldSchema : ZodType :=
  ZObject [(js "name", ZString [Min 1 (js "Название поля обязательно")]);
           (js "type", ZEnum [js "text"; js "email"; js "number"]);
           (js "label", ZString [Min 1 (js "Label обязателен")]);
           (js "rules", ZString [])].

Definition schema : ZodType :=
  ZObject [(js "fields", ZArray fieldSchema);
           (js "resolver", ZEnum [js "zod"; js "joi"]);
           (js "uiLib", ZEnum [js "shadcn"; js "mui"; js "chakra"])].

(** ** [GeneratedPreview] (lines 45-121) *)
Module GeneratedPreview.

(** Line 55: [previewSchema.filter((field) => field.name.trim())]. *)
Definition validFields (previewSchema : list Field) : list Field :=
  List.filter (fun field => truthy (trim (name field))) previewSchema.

(** [obj[key] = value] on a plain object, for a string [value]: an own
    property is set or overwritten, except under the key [__proto__], which
    is the accessor inherited from [Object.prototype]; its setter ignores a
    value that is neither an object nor [null], so the object is left as it
    is. *)
Definition assign (obj : gmap jsstring jsstring) (key value : jsstring)
  : gmap jsstring jsstring :=
  if decide (key = js "__proto__") then obj else <[key := value]> obj.

(** Lines 58-64: the [reduce] that sets [acc[field.name] = ''] on an
    initially empty object. *)
Definition defaultValues (validFields : list Field) : gmap jsstring jsstring :=
  fold_left (fun acc field => assign acc (name field) []) validFields ∅.

(** Lines 103-105: the options of [previewForm.register]:
    [required: field.rules?.includes('required') || false]. *)
Record RegisterOptions := { required : bool }.

Definition registerOptions (rules : jsstring) : RegisterOptions :=
  {| required := includes rules (js "required") || false |}.

(** One rendered row of the preview form (lines 98-112): its React key
    [field.id || field.name], the name its input is registered under, the
    options of the registration, and the label and type of the input. *)
Record Control := {
  key : jsstring;
  registered : jsstring;
  options : RegisterOptions;
  inputType : FieldType;
  placeholder : jsstring
}.

Definition control (field : Field) : Control :=
  {| key := match id field with
            | Some i => if truthy i then i else name field
            | None => name field
            end;
     registered := name field;
     options := registerOptions (rules field);
     inputType := type field;
     placeholder := label field |}.

(** What the component returns: the placeholder card when no field is
    valid (lines 68-81), the form otherwise (lines 83-120). *)
Inductive Rendered :=
| Placeholder
| PreviewForm (initial : gmap jsstring jsstring) (controls : list Control).

Definition render (previewSchema : list Field) : Rendered :=
  let validFields := validFields previewSchema in
  let defaultValues := defaultValues validFields in
  if (length validFields =? 0)%nat then Placeholder
  else PreviewForm defaultValues (map control validFields).

(** Modelled from the spec: the value store of the [useForm] instance of
    react-hook-form, which is not under src/. A registered control shows the
    entry the instance holds under the name the control is registered
    under. *)
Definition controlValue (values : gmap jsstring jsstring) (c : Control)
  : option jsstring :=
  values !! registered c.

End GeneratedPreview.

(** ** [HomePage] (lines 123-349) *)
Module HomePage.

(** Lines 126-138: the [defaultValues] of the editor form. *)
Definition seedField : Field :=
  {| id := Some (js "1");
     name := js "email";
     type := email;
     label := js "Email";
     rules := js "email() | required()" |}.

Definition defaultValues : FormData :=
  {| fields := [seedField]; resolver := zod; uiLib := shadcn |}.

(** Lines 290-295: the field the button at the end of the list appends. *)
Definition blankField : Field :=
  {| name := []; label := []; type := text; rules := []; id := None |}.

(** The store behind [useForm] and [useFieldArray]: the rows of the field
    array, each with the identity minted for it, the two global choices,
    and the errors of the last submission. *)
Record Row := { identity : nat; row : Field }.

Record Store := {
  rows : list Row;
  resolverKind : ResolverKind;
  uiLibKind : UiLibKind;
  minted : nat;
  errors : list ZodIssue
}.

Definition initial : Store :=
  {| rows := [{| identity := 0; row := seedField |}];
     resolverKind := resolver defaultValues;
     uiLibKind := uiLib defaultValues;
     minted := 1;
     errors := [] |}.

(** The values of the form: what [form.watch] and the submission read. *)
Definition getValues (st : Store) : FormData :=
  {| fields := map row (rows st);
     resolver := resolverKind st;
     uiLib := uiLibKind st |}.

(** Modelled from the spec: [append] of react-hook-form's [useFieldArray],
    which is not under src/. It inserts the new field, with a freshly
    minted identity, at the end of the sequence. *)
Definition append (defaults : Field) (st : Store) : Store :=
  {| rows := rows st ++ [{| identity := minted st; row := defaults |}];
     resolverKind := resolverKind st;
     uiLibKind := uiLibKind st;
     minted := S (minted st);
     errors := errors st |}.

(** Modelled from the spec: [remove] of react-hook-form's [useFieldArray],
    which is not under src/, at the row index the editor passes (line 277).
    It removes the field at the given position of the sequence and does
    nothing when the position is out of range; the remaining rows keep
    their identities. *)
Definition remove (position : nat) (st : Store) : Store :=
  if (position <? length (rows st))%nat then
    {| rows := delete position (rows st);
       resolverKind := resolverKind st;
       uiLibKind := uiLibKind st;
       minted := minted st;
       errors := errors st |}
  else st.

(** Line 235: the input registered under [fields.${idx}.name] writes the
    text typed into it to the name of the row at [idx]; the row keeps its
    identity. *)
Definition setName (idx : nat) (v : jsstring) (st : Store) : Store :=
  let rename r :=
    {| identity := identity r;
       row := {| name := v; type := type (row r); label := label (row r);
                 rules := rules (row r); id := id (row r) |} |} in
  {| rows := alter rename idx (rows st);
     resolverKind := resolverKind st;
     uiLibKind := uiLibKind st;
     minted := minted st;
     errors := errors st |}.

(** Lines 195 and 212: [form.setValue('resolver', v)] and
    [form.setValue('uiLib', v)]. *)
Definition setResolver (v : ResolverKind) (st : Store) : Store :=
  {| rows := rows st; resolverKind := v; uiLibKind := uiLibKind st;
     minted := minted st; errors := errors st |}.

Definition setUiLib (v : UiLibKind) (st : Store) : Store :=
  {| rows := rows st; resolverKind := resolverKind st; uiLibKind := v;
     minted := minted st; errors := errors st |}.

(** What the page does outside its own state: texts written to the
    clipboard and lines logged to the console, oldest first. *)
Record Effects := {
  clipboard : list jsstring;
  console : list (list jsstring)
}.

(** [String(json)] of the result of [JSON.stringify]. *)
Definition toText (json : option jsstring) : jsstring :=
  match json with Some t => t | None => js "undefined" end.

(** Lines 150-154: [onSubmit]. *)
Definition onSubmit (data : value) (w : Effects) : Effects :=
  let json := toText (JSON.stringify data 2) in
  {| clipboard := clipboard w ++ [json];
     console := console w ++ [[js "✅ Сгенерировано и скопировано:"; json]] |}.

(** Modelled from the spec: [zodResolver] of @hookform/resolvers, which is
    not under src/. The values of the form are parsed against the schema;
    the resolver gives back the parsed data or the issues. *)
Definition zodResolver (t : ZodType) (values : FormData) : SafeParseResult :=
  safeParse t (formValue values).

(** Modelled from the spec: [handleSubmit] of react-hook-form, which is not
    under src/. The resolver of the form (line 125: [zodResolver(schema)])
    is run on the values; on success the callback receives the data of the
    resolver, on failure the errors are kept in the form state and the
    callback is not called. The values of the form are not touched. *)
Definition handleSubmit (onValid : value -> Effects -> Effects)
    (st : Store) (w : Effects) : Store * Effects :=
  let withErrors issues :=
    {| rows := rows st; resolverKind := resolverKind st;
       uiLibKind := uiLibKind st; minted := minted st; errors := issues |} in
  match zodResolver schema (getValues st) with
  | ParseSuccess data => (withErrors [], onValid data w)
  | ParseError issues => (withErrors issues, w)
  end.

(** Line 171: the export button runs [form.handleSubmit(onSubmit)()]. *)
Definition export (st : Store) (w : Effects) : Store * Effects :=
  handleSubmit onSubmit st w.

(** The payload of a successful export: the data [onSubmit] serializes. *)
Definition payload (values : FormData) : option value :=
  match zodResolver schema values with
  | ParseSuccess data => Some data
  | ParseError _ => None
  end.

End HomePage.

(** ** Definitions used to state the properties *)

(** The projection as the specification words it: the ordered subsequence
    of the fields whose trimmed name is not empty. *)
Inductive ProjectionSpec : list Field -> list Field -> Prop :=
| projection_nil : ProjectionSpec [] []
| projection_keep f l r :
    trim (name f) <> [] -> ProjectionSpec l r -> ProjectionSpec (f :: l) (f :: r)
| projection_drop f l r :
    trim (name f) = [] -> ProjectionSpec l r -> ProjectionSpec (f :: l) r.

(** The object a field becomes in the payload. *)
Definition payloadField (f : Field) : value :=
  VObject [(js "name", VString (name f)); (js "type", VString (typeName (type f)));
           (js "label", VString (label f)); (js "rules", VString (rules f))].

Definition payloadOf (d : FormData) : value :=
  VObject [(js "fields", VArray (map payloadField (fields d)));
           (js "resolver", VString (resolverName (resolver d)));
           (js "uiLib", VString (uiLibName (uiLib d)))].

(** The structural errors of the field at position [i]. *)
Definition nameIssue (i : nat) : ZodIssue :=
  {| code := too_small;
     path := [Key (js "fields"); Index i; Key (js "name")];
     message := Some (js "Название поля обязательно") |}.

Definition labelIssue (i : nat) : ZodIssue :=
  {| code := too_small;
     path := [Key (js "fields"); Index i; Key (js "label")];
     message := Some (js "Label обязателен") |}.

Definition fieldIssues (i : nat) (f : Field) : list ZodIssue :=
  (if (jslength (name f) <? 1)%nat then [nameIssue i] else [])
  ++ (if (jslength (label f) <? 1)%nat then [labelIssue i] else []).

Definition formIssues (d : FormData) : list ZodIssue :=
  concat (imap fieldIssues (fields d)).

(** A text given line by line, with ['] standing for the double quote. *)
Definition lines (l : list string) : jsstring :=
  JSON.join [10] (map (fun s => map (fun c => if c =? 39 then 34 else c) (js s)) l).

Definition seedJson : jsstring :=
  lines ["{";
         "  'fields': [";
         "    {";
         "      'name': 'email',";
         "      'type': 'email',";
         "      'label': 'Email',";
         "      'rules': 'email() | required()'";
         "    }";
         "  ],";
         "  'resolver': 'zod',";
         "  'uiLib': 'shadcn'";
         "}"]%string.

(** ** The editor rows (lines 227-284) *)
Module Editor.

(** An array index as a template literal prints it: its decimal digits. *)
Definition decimal (n : nat) : jsstring :=
  map N_of_ascii (list_ascii_of_string (DecimalString.NilEmpty.string_of_uint (Nat.to_uint n))).

(** The four attributes of a row the editor writes to. *)
Inductive Attribute := AName | ALabel | AType | ARules.

Definition attributeName (a : Attribute) : jsstring :=
  match a with
  | AName => js "name"
  | ALabel => js "label"
  | AType => js "type"
  | ARules => js "rules"
  end.

(** Lines 235, 242, 250 and 268: the paths [`fields.${idx}.name`],
    [`fields.${idx}.label`], [`fields.${idx}.type`] and
    [`fields.${idx}.rules`]. *)
Definition path (idx : nat) (a : Attribute) : jsstring :=
  js "fields." ++ decimal idx ++ js "." ++ attributeName a.

(** One row of the list (lines 228-283): its React key [field.id], the
    paths its three inputs are registered under and its select writes to,
    and the index its remove button passes to [remove]. *)
Record EditorRow := {
  rowKey : nat;
  nameInput : jsstring;
  labelInput : jsstring;
  typeSelect : jsstring;
  rulesInput : jsstring;
  removeIndex : nat
}.

Definition editorRows (st : HomePage.Store) : list EditorRow :=
  imap (fun idx r =>
          {| rowKey := HomePage.identity r;
             nameInput := path idx AName;
             labelInput := path idx ALabel;
             typeSelect := path idx AType;
             rulesInput := path idx ARules;
             removeIndex := idx |})
       (HomePage.rows st).

(** A field with one attribute replaced. *)
Definition withName (v : jsstring) (f : Field) : Field :=
  {| name := v; type := type f; label := label f; rules := rules f; id := id f |}.

Definition withLabel (v : jsstring) (f : Field) : Field :=
  {| name := name f; type := type f; label := v; rules := rules f; id := id f |}.


Definition withRules (v : jsstring) (f : Field) : Field :=
  {| name := name f; type := type f; label := label f; rules := v; id := id f |}.

(** What typing into an input of the row at [idx], or choosing in its
    select, does to the store: the attribute of that row is replaced, the
    row keeps its identity. *)
Definition updateRow (idx : nat) (change : Field -> Field) (st : HomePage.Store)
  : HomePage.Store :=
  {| HomePage.rows :=
       alter (fun r => {| HomePage.identity := HomePage.identity r;
                          HomePage.row := change (HomePage.row r) |})
             idx (HomePage.rows st);
     HomePage.resolverKind := HomePage.resolverKind st;
     HomePage.uiLibKind := HomePage.uiLibKind st;
     HomePage.minted := HomePage.minted st;
     HomePage.errors := HomePage.errors st |}.

(** Line 242: the input registered under [fields.${idx}.label]. *)
Definition setLabel (idx : nat) (v : jsstring) : HomePage.Store -> HomePage.Store :=
  updateRow idx (withLabel v).



End Editor.

(** ** Reading a quoted string back

    The reader of the text [JSON.quote] writes, used to show that the text
    of an export determines the payload: the code units up to the closing
    quote, with the escapes undone, and the text after the quote. *)
Module Reader.

Definition hexValue (c : code_unit) : option N :=
  if (48 <=? c) && (c <=? 57) then Some (c - 48)
  else if (97 <=? c) && (c <=? 102) then Some (c - 87)
  else None.

Definition unescape (c : code_unit) : option code_unit :=
  if c =? 98 then Some 8
  else if c =? 116 then Some 9
  else if c =? 110 then Some 10
  else if c =? 102 then Some 12
  else if c =? 114 then Some 13
  else if c =? 34 then Some 34
  else if c =? 92 then Some 92
  else None.

Definition push (c : code_unit) (r : option (jsstring * jsstring))
  : option (jsstring * jsstring) :=
  match r with
  | Some (s, rest) => Some (c :: s, rest)
  | None => None
  end.

Fixpoint readUnits (t : jsstring) : option (jsstring * jsstring) :=
  match t with
  | [] => None
  | c :: t1 =>
      if c =? 34 then Some ([], t1)
      else if c =? 92 then
        match t1 with
        | [] => None
        | e :: t2 =>
            if e =? 117 then
              match t2 with
              | h3 :: h2 :: h1 :: h0 :: t6 =>
                  match hexValue h3, hexValue h2, hexValue h1, hexValue h0 with
                  | Some a, Some b, Some c', Some d =>
                      push (4096 * a + 256 * b + 16 * c' + d) (readUnits t6)
                  | _, _, _, _ => None
                  end
              | _ => None
              end
            else
              match unescape e with
              | Some u => push u (readUnits t2)
              | None => None
              end
        end
      else push c (readUnits t1)
  end.

Definition readString (t : jsstring) : option (jsstring * jsstring) :=
  match t with
  | 34 :: t1 => readUnits t1
  | _ => None
  end.

(** The text of the field objects and of the payload, as [JSON.stringify]
    lays them out with two spaces. *)
Definition fieldText (f : Field) : jsstring :=
  JSON.wrap 123 125 [32; 32] [32; 32; 32; 32]
    [JSON.quote (js "name") ++ [58; 32] ++ JSON.quote (name f);
     JSON.quote (js "type") ++ [58; 32] ++ JSON.quote (typeName (type f));
     JSON.quote (js "label") ++ [58; 32] ++ JSON.quote (label f);
     JSON.quote (js "rules") ++ [58; 32] ++ JSON.quote (rules f)].

Definition fieldsText (fs : list Field) : jsstring :=
  JSON.wrap 91 93 [32; 32] [32; 32] (map fieldText fs).

Definition exportText (d : FormData) : jsstring :=
  JSON.wrap 123 125 [32; 32] []
    [JSON.quote (js "fields") ++ [58; 32] ++ fieldsText (fields d);
     JSON.quote (js "resolver") ++ [58; 32] ++ JSON.quote (resolverName (resolver d));
     JSON.quote (js "uiLib") ++ [58; 32] ++ JSON.quote (uiLibName (uiLib d))].

(** What the payload keeps of a field. *)
Definition content (f : Field) : jsstring * FieldType * jsstring * jsstring :=
  (name f, type f, label f, rules f).

End Reader.

(** ** Lemmas on strings *)

Lemma startsWith_spec (s search : jsstring) :
  startsWith s search = true <-> exists post, s = search ++ post.
Proof.
  revert s. induction search as [|a search IH]; intros s; simpl.
  - split; [intros _; by exists s | done].
  - destruct s as [|b s].
    + split; [discriminate | intros [post H]; discriminate].
    + rewrite andb_true_iff, N.eqb_eq, IH. split.
      * intros [-> [post ->]]. eauto.
      * intros [post H]. injection H as -> ->. eauto.
Qed.

Lemma includes_spec (s search : jsstring) :
  includes s search = true <-> exists pre post, s = pre ++ search ++ post.
Proof.
  induction s as [|c s IH]; simpl.
  - rewrite orb_false_r, startsWith_spec. split.
    + intros [post H]. exists [], post. exact H.
    + intros [pre [post H]]. destruct pre; [simpl in H; eauto | discriminate].
  - rewrite orb_true_iff, startsWith_spec, IH. split.
    + intros [[post H] | [pre [post H]]].
      * exists [], post. exact H.
      * exists (c :: pre), post. simpl. by rewrite H.
    + intros [pre [post H]]. destruct pre as [|c' pre]; simpl in H.
      * left. eauto.
      * right. injection H as _ ->. eauto.
Qed.

Lemma trimStart_nil_iff (s : jsstring) : trimStart s = [] <-> blank s = true.
Proof.
  induction s as [|c s IH]; simpl; [done|].
  destruct (isWhiteSpace c); simpl; [exact IH|]. split; discriminate.
Qed.

Lemma blank_app (s t : jsstring) : blank (s ++ t) = blank s && blank t.
Proof. apply forallb_app. Qed.

Lemma blank_rev (s : jsstring) : blank (rev s) = blank s.
Proof.
  induction s as [|c s IH]; simpl; [done|].
  rewrite blank_app, IH. simpl. rewrite andb_true_r. apply andb_comm.
Qed.

Lemma trimStart_cut (s : jsstring) :
  exists pre, s = pre ++ trimStart s /\ blank pre = true.
Proof.
  induction s as [|c s [pre [Hs Hpre]]]; simpl.
  - by exists [].
  - destruct (isWhiteSpace c) eqn:Hc.
    + exists (c :: pre). simpl. rewrite Hc, Hpre. split; [by f_equal | done].
    + by exists [].
Qed.

(** [trim] leaves nothing exactly of the blank strings. *)
Lemma trim_nil_iff (s : jsstring) : trim s = [] <-> blank s = true.
Proof.
  unfold trim, trimEnd.
  destruct (trimStart_cut s) as [pre [Hs Hpre]].
  assert (Hb : blank s = blank (trimStart s)).
  { rewrite Hs at 1. by rewrite blank_app, Hpre. }
  rewrite Hb, <- (blank_rev (trimStart s)), <- trimStart_nil_iff. split.
  - intros H. apply (f_equal (@rev _)) in H. by rewrite rev_involutive in H.
  - intros ->. done.
Qed.

Lemma truthy_trim (s : jsstring) : truthy (trim s) = negb (blank s).
Proof.
  destruct (blank s) eqn:Hb.
  - apply trim_nil_iff in Hb. by rewrite Hb.
  - destruct (trim s) eqn:Ht; [|done].
    apply trim_nil_iff in Ht. congruence.
Qed.

Import GeneratedPreview HomePage.

(** ** The rule interpreter *)

(** C2: the [required] option computed from a rule string is true exactly
    when the string contains the literal, case-sensitive text [required]
    somewhere (so [required-ish] and [notrequired] give true, [Required]
    and the empty string give false); the computation is a total
    function. *)
Theorem required_iff_contains_required :
  (forall s : jsstring,
     required (registerOptions s) = includes s (js "required")
     /\ (required (registerOptions s) = true
         <-> exists pre post, s = pre ++ js "required" ++ post))
  /\ required (registerOptions (js "required-ish")) = true
  /\ required (registerOptions (js "notrequired")) = true
  /\ required (registerOptions (js "Required")) = false
  /\ required (registerOptions []) = false.
Proof.
  split; [|by vm_compute].
  intros s. unfold registerOptions. cbn [required].
  rewrite orb_false_r. split; [done | apply includes_spec].
Qed.

(** ** The projection *)

Lemma validFields_cons (f : Field) (l : list Field) :
  validFields (f :: l) =
  if blank (name f) then validFields l else f :: validFields l.
Proof.
  unfold validFields. cbn [List.filter]. rewrite truthy_trim.
  by destruct (blank (name f)).
Qed.

Lemma validFields_spec (l : list Field) : ProjectionSpec l (validFields l).
Proof.
  induction l as [|f l IH]; [constructor|].
  rewrite validFields_cons. destruct (blank (name f)) eqn:Hb.
  - apply projection_drop; [by apply trim_nil_iff | done].
  - apply projection_keep; [|done].
    rewrite trim_nil_iff. congruence.
Qed.

Lemma ProjectionSpec_unique (l r : list Field) :
  ProjectionSpec l r -> r = validFields l.
Proof.
  induction 1 as [|f l r Hf _ IH|f l r Hf _ IH]; [done| |];
    rewrite validFields_cons.
  - destruct (blank (name f)) eqn:Hb; [|by rewrite IH].
    by apply trim_nil_iff in Hb.
  - apply trim_nil_iff in Hf. by rewrite Hf.
Qed.

Lemma elem_of_validFields (l : list Field) (f : Field) :
  f ∈ validFields l <-> f ∈ l /\ trim (name f) <> [].
Proof.
  unfold validFields. rewrite !list_elem_of_In, filter_In, truthy_trim.
  rewrite trim_nil_iff. destruct (blank (name f)); simpl; intuition congruence.
Qed.

Lemma validFields_sublist (l : list Field) : sublist (validFields l) l.
Proof.
  induction l as [|f l IH]; [constructor|].
  rewrite validFields_cons. destruct (blank (name f)); by constructor.
Qed.

(** C3: the projection is exactly the ordered subsequence of the fields
    whose trimmed name is not empty: it is the one list the specification's
    wording admits, a subsequence of the input in the input's order, holding
    just the fields with a non-blank name, as many as there are such
    fields; computing it again, on the same input or on its own result,
    changes nothing. *)
Theorem validFields_is_projection (previewSchema : list Field) :
  (forall r, ProjectionSpec previewSchema r <-> r = validFields previewSchema)
  /\ sublist (validFields previewSchema) previewSchema
  /\ (forall f, f ∈ validFields previewSchema
                <-> f ∈ previewSchema /\ trim (name f) <> [])
  /\ length (validFields previewSchema)
     = list_sum (map (fun f => if decide (trim (name f) = []) then 0%nat else 1%nat)
                   previewSchema)
  /\ validFields (validFields previewSchema) = validFields previewSchema.
Proof.
  split_and!.
  - intros r. split; [apply ProjectionSpec_unique | intros ->; apply validFields_spec].
  - apply validFields_sublist.
  - intros f. apply elem_of_validFields.
  - induction previewSchema as [|f l IH]; [done|].
    rewrite validFields_cons. cbn [map list_sum].
    destruct (blank (name f)) eqn:Hb; case_decide as Ht.
    + done.
    + by rewrite trim_nil_iff in Ht.
    + rewrite trim_nil_iff in Ht. congruence.
    + cbn [length]. by rewrite IH.
  - induction previewSchema as [|f l IH]; [done|].
    rewrite validFields_cons. destruct (blank (name f)) eqn:Hb; [done|].
    by rewrite validFields_cons, Hb, IH.
Qed.

(** ** The structural validation *)

Lemma parse_fieldSchema (i : nat) (f : Field) :
  parse fieldSchema ([Key (js "fields")] ++ [Index i]) (fieldValue f)
  = (payloadField f, fieldIssues i f).
Proof.
  destruct f as [[|c n] t [|c' l] r [i'|]]; destruct t; reflexivity.
Qed.

Lemma imap_map {A B C} (g : nat -> B -> C) (h : A -> B) (l : list A) :
  imap g (map h l) = imap (fun i x => g i (h x)) l.
Proof.
  revert g. induction l as [|x l IH]; intros g; [done|].
  cbn [map imap]. by rewrite IH.
Qed.

Lemma parse_form_shape (t : ZodType) (items : list value)
    (r : ResolverKind) (u : UiLibKind) :
  let parsed := imap (fun i item => parse t ([Key (js "fields")] ++ [Index i]) item) items in
  parse (ZObject [(js "fields", ZArray t);
                  (js "resolver", ZEnum [js "zod"; js "joi"]);
                  (js "uiLib", ZEnum [js "shadcn"; js "mui"; js "chakra"])])
        []
        (VObject [(js "fields", VArray items);
                  (js "resolver", VString (resolverName r));
                  (js "uiLib", VString (uiLibName u))])
  = (VObject [(js "fields", VArray (map fst parsed));
              (js "resolver", VString (resolverName r));
              (js "uiLib", VString (uiLibName u))],
     concat (map snd parsed) ++ []).
Proof.
  destruct r, u; reflexivity.
Qed.

Lemma map_fst_imap {A B C} (a : A -> B) (g : nat -> A -> C) (l : list A) :
  map fst (imap (fun i x => (a x, g i x)) l) = map a l.
Proof.
  revert g. induction l as [|x l IH]; intros g; [done|].
  cbn [imap map fst]. f_equal. apply (IH (g ∘ S)).
Qed.

Lemma map_snd_imap {A B C} (a : A -> B) (g : nat -> A -> C) (l : list A) :
  map snd (imap (fun i x => (a x, g i x)) l) = imap g l.
Proof.
  revert g. induction l as [|x l IH]; intros g; [done|].
  cbn [imap map snd]. f_equal. apply (IH (g ∘ S)).
Qed.

Lemma parse_schema (d : FormData) :
  parse schema [] (formValue d) = (payloadOf d, formIssues d).
Proof.
  unfold schema, formValue. rewrite parse_form_shape. cbv zeta.
  rewrite imap_map.
  rewrite (imap_ext _ (fun i f => (payloadField f, fieldIssues i f)))
    by (intros; apply parse_fieldSchema).
  by rewrite map_fst_imap, map_snd_imap, app_nil_r.
Qed.

Lemma fieldIssues_nil (i : nat) (f : Field) :
  fieldIssues i f = [] <-> name f <> [] /\ label f <> [].
Proof.
  unfold fieldIssues, jslength.
  destruct (name f), (label f); cbn; intuition congruence.
Qed.

Lemma concat_imap_nil {A B} (g : nat -> A -> list B) (l : list A) :
  concat (imap g l) = [] <-> forall i x, l !! i = Some x -> g i x = [].
Proof.
  revert g. induction l as [|x l IH]; intros g; cbn [imap concat].
  - split; [intros _ i x H; discriminate | done].
  - split.
    + intros H. apply app_eq_nil in H as [H0 H]. intros [|i] y Hy.
      * injection Hy as <-. exact H0.
      * exact (proj1 (IH (g ∘ S)) H i y Hy).
    + intros H. rewrite (H 0%nat x eq_refl). cbn [app].
      apply IH. intros i y Hy. exact (H (S i) y Hy).
Qed.

Lemma formIssues_nil (d : FormData) :
  formIssues d = [] <-> Forall (fun f => name f <> [] /\ label f <> []) (fields d).
Proof.
  unfold formIssues. rewrite concat_imap_nil, Forall_lookup. split.
  - intros H i f Hf. by apply (fieldIssues_nil i), H.
  - intros H i f Hf. by apply fieldIssues_nil, (H i).
Qed.

Lemma elem_of_formIssues (d : FormData) (x : ZodIssue) :
  x ∈ formIssues d
  <-> exists i f, fields d !! i = Some f /\ x ∈ fieldIssues i f.
Proof.
  unfold formIssues. rewrite list_elem_of_In, in_concat. split.
  - intros [issues [Hi Hx]]. apply list_elem_of_In, elem_of_lookup_imap in Hi.
    destruct Hi as [i [f [-> Hf]]]. exists i, f. by rewrite list_elem_of_In.
  - intros [i [f [Hf Hx]]]. exists (fieldIssues i f).
    rewrite <- !list_elem_of_In. split; [|done].
    by apply (elem_of_lookup_imap_2 fieldIssues).
Qed.

Lemma zodResolver_schema (d : FormData) :
  zodResolver schema d =
  match formIssues d with
  | [] => ParseSuccess (payloadOf d)
  | issues => ParseError issues
  end.
Proof.
  unfold zodResolver, safeParse. rewrite parse_schema.
  by destruct (formIssues d).
Qed.

Lemma payload_Some (d : FormData) (data : value) :
  payload d = Some data <-> formIssues d = [] /\ data = payloadOf d.
Proof.
  unfold payload. rewrite zodResolver_schema.
  destruct (formIssues d); split; try done.
  - intros [= <-]. done.
  - intros [_ ->]. done.
  - intros [? _]. done.
Qed.

Lemma payload_None (d : FormData) : payload d = None <-> formIssues d <> [].
Proof.
  unfold payload. rewrite zodResolver_schema. by destruct (formIssues d).
Qed.

Lemma export_invalid (st : Store) (w : Effects) :
  formIssues (getValues st) <> [] ->
  export st w =
  ({| rows := rows st; resolverKind := resolverKind st; uiLibKind := uiLibKind st;
      minted := minted st; errors := formIssues (getValues st) |}, w).
Proof.
  intros H. unfold export, handleSubmit. rewrite zodResolver_schema.
  by destruct (formIssues (getValues st)).
Qed.

Lemma export_valid (st : Store) (w : Effects) :
  formIssues (getValues st) = [] ->
  export st w =
  ({| rows := rows st; resolverKind := resolverKind st; uiLibKind := uiLibKind st;
      minted := minted st; errors := [] |},
   onSubmit (payloadOf (getValues st)) w).
Proof.
  intros H. unfold export, handleSubmit. by rewrite zodResolver_schema, H.
Qed.

(** C5: when some field of the definition has an empty name or an empty
    label, the export fails: no payload is produced, nothing is written to
    the clipboard (nor logged), the fields and the two global choices of the
    store are as before, and the errors kept are the structural errors of
    the fields, among them the error of the offending field, at its
    position, with the message of the schema. *)
Theorem export_fails_on_empty_name_or_label
    (st : Store) (w : Effects) (i : nat) (f : Field) :
  fields (getValues st) !! i = Some f ->
  name f = [] \/ label f = [] ->
  payload (getValues st) = None
  /\ (export st w).2 = w
  /\ rows (export st w).1 = rows st
  /\ getValues (export st w).1 = getValues st
  /\ errors (export st w).1 <> []
  /\ (name f = [] -> nameIssue i ∈ errors (export st w).1)
  /\ (label f = [] -> labelIssue i ∈ errors (export st w).1)
  /\ (forall x, x ∈ errors (export st w).1 ->
        exists j g, fields (getValues st) !! j = Some g
                    /\ ((x = nameIssue j /\ name g = [])
                        \/ (x = labelIssue j /\ label g = []))).
Proof.
  intros Hf Hempty.
  assert (Hbad : formIssues (getValues st) <> []).
  { rewrite formIssues_nil, Forall_lookup. intros H.
    destruct (H i f Hf) as [? ?]. by destruct Hempty. }
  rewrite (export_invalid st w Hbad). cbn [fst snd rows errors].
  split_and!; try done.
  - by apply payload_None.
  - intros Hn. apply elem_of_formIssues. exists i, f. split; [done|].
    unfold fieldIssues, jslength. rewrite Hn. cbn. by left.
  - intros Hl. apply elem_of_formIssues. exists i, f. split; [done|].
    unfold fieldIssues, jslength. rewrite Hl. cbn.
    apply list_elem_of_In, in_or_app. right. by left.
  - intros x Hx. apply elem_of_formIssues in Hx as [j [g [Hg Hx]]].
    exists j, g. split; [done|]. unfold fieldIssues, jslength in Hx.
    apply list_elem_of_In, in_app_or in Hx.
    destruct Hx as [Hx|Hx]; [left | right].
    + destruct (name g); cbn in Hx; [|done]. by destruct Hx as [<-|[]].
    + destruct (label g); cbn in Hx; [|done]. by destruct Hx as [<-|[]].
Qed.

Lemma export_fails_on_empty_name_or_label_witness :
  payload (getValues (append blankField initial)) = None
  /\ (export (append blankField initial) {| clipboard := []; console := [] |}).2
     = {| clipboard := []; console := [] |}.
Proof.
  pose proof (export_fails_on_empty_name_or_label
                (append blankField initial) {| clipboard := []; console := [] |}
                1 blankField eq_refl (or_introl eq_refl)) as H.
  exact (conj (proj1 H) (proj1 (proj2 H))).
Defined.

(** ** The export payload *)

Lemma keys_payloadField (f : Field) :
  keys (payloadField f) = [js "name"; js "type"; js "label"; js "rules"].
Proof. reflexivity. Qed.

(** C1: exporting the seed definition yields exactly the object with the
    keys [fields], [resolver], [uiLib], in this order, whose one field has
    the keys [name], [type], [label], [rules], in this order, with the seed's
    values; its text without indentation is the text the specification
    gives, and the text written to the clipboard (and logged) is that object
    indented by two spaces. For every definition that is exported, the
    objects of the fields hold the keys [name], [type], [label], [rules] and
    no others, so never the [id] of a row. *)
Theorem export_seed_payload :
  getValues initial = HomePage.defaultValues
  /\ payload HomePage.defaultValues
     = Some (VObject
               [(js "fields",
                 VArray [VObject [(js "name", VString (js "email"));
                                  (js "type", VString (js "email"));
                                  (js "label", VString (js "Email"));
                                  (js "rules", VString (js "email() | required()"))]]);
                (js "resolver", VString (js "zod"));
                (js "uiLib", VString (js "shadcn"))])
  /\ (JSON.stringify (payloadOf HomePage.defaultValues) 0
      = Some (lines ["{'fields':[{'name':'email','type':'email','label':'Email','rules':'email() | required()'}],'resolver':'zod','uiLib':'shadcn'}"%string]))
  /\ (forall w, (export initial w).2
                = {| clipboard := clipboard w ++ [seedJson];
                     console := console w
                                ++ [[js "✅ Сгенерировано и скопировано:"; seedJson]] |})
  /\ (forall d data,
        payload d = Some data ->
        exists items,
          data = VObject [(js "fields", VArray items);
                          (js "resolver", VString (resolverName (resolver d)));
                          (js "uiLib", VString (uiLibName (uiLib d)))]
          /\ items = map payloadField (fields d)
          /\ Forall (fun item =>
                       keys item = [js "name"; js "type"; js "label"; js "rules"]
                       /\ js "id" ∉ keys item) items).
Proof.
  split_and!.
  - reflexivity.
  - by vm_compute.
  - by vm_compute.
  - intros w. rewrite export_valid by (by vm_compute).
    cbn [snd]. unfold onSubmit.
    replace (toText (JSON.stringify (payloadOf (getValues initial)) 2))
      with seedJson by (by vm_compute).
    reflexivity.
  - intros d data [_ ->]%payload_Some. eexists. split; [reflexivity|].
    split; [reflexivity|]. apply Forall_forall. intros item Hitem.
    apply list_elem_of_In, in_map_iff in Hitem as [f [<- _]].
    rewrite keys_payloadField. split; [done|].
    rewrite list_elem_of_In. vm_compute. intuition discriminate.
Qed.

Lemma export_seed_payload_witness :
  exists items,
    payloadOf HomePage.defaultValues
    = VObject [(js "fields", VArray items);
               (js "resolver", VString (resolverName zod));
               (js "uiLib", VString (uiLibName shadcn))]
    /\ items = map payloadField [seedField]
    /\ Forall (fun item =>
                 keys item = [js "name"; js "type"; js "label"; js "rules"]
                 /\ js "id" ∉ keys item) items.
Proof.
  apply (proj2 (proj2 (proj2 (proj2 export_seed_payload)))
           HomePage.defaultValues (payloadOf HomePage.defaultValues)).
  by vm_compute.
Defined.

(** C6: the structural validation does not depend on the resolver chosen
    in the definition: with [zod] and with [joi], everything else equal,
    the export succeeds or fails alike, with the same errors, and writes to
    the clipboard in both cases or in neither; the errors are determined by
    the fields alone. The two choices only travel to the payload, as the
    values of its [resolver] and [uiLib] keys. *)
Theorem validation_independent_of_resolver (st : Store) (w : Effects) :
  let withZod := export (setResolver zod st) w in
  let withJoi := export (setResolver joi st) w in
  errors withZod.1 = errors withJoi.1
  /\ (is_Some (payload (getValues (setResolver zod st)))
      <-> is_Some (payload (getValues (setResolver joi st))))
  /\ length (clipboard withZod.2) = length (clipboard withJoi.2)
  /\ (forall d r u,
        formIssues {| fields := fields d; resolver := r; uiLib := u |} = formIssues d)
  /\ (forall d,
        payload d = None
        \/ payload d
           = Some (VObject [(js "fields", VArray (map payloadField (fields d)));
                            (js "resolver", VString (resolverName (resolver d)));
                            (js "uiLib", VString (uiLibName (uiLib d)))])).
Proof.
  assert (Hsame : forall r, formIssues (getValues (setResolver r st))
                            = formIssues (getValues st)) by done.
  cbv zeta. split_and!.
  - destruct (formIssues (getValues st)) as [|x issues] eqn:Hi.
    + rewrite !export_valid by (by rewrite Hsame). done.
    + rewrite !export_invalid by (by rewrite Hsame).
      cbn [fst errors]. by rewrite !Hsame.
  - unfold payload. rewrite !zodResolver_schema, !Hsame.
    destruct (formIssues (getValues st)); split; intros [? ?]; by eauto.
  - destruct (formIssues (getValues st)) as [|x issues] eqn:Hi.
    + rewrite !export_valid by (by rewrite Hsame).
      cbn [snd]. unfold onSubmit. cbn [clipboard]. by rewrite !length_app.
    + by rewrite !export_invalid by (by rewrite Hsame).
  - done.
  - intros d. unfold payload. rewrite zodResolver_schema.
    destruct (formIssues d); [right | left]; done.
Qed.

(** C9: the structural validation looks at the untrimmed strings: a
    definition is exported exactly when the name and the label of every
    field have at least one code unit. So a field whose name holds only
    white space passes it, and yet is left out of the projection and never
    rendered in the preview; a label of white space passes as well. *)
Theorem blank_name_is_exported_but_not_previewed :
  (forall d,
     is_Some (payload d)
     <-> Forall (fun g => (1 <= jslength (name g))%nat /\ (1 <= jslength (label g))%nat)
           (fields d))
  /\ (forall d f,
        f ∈ fields d -> blank (name f) = true ->
        (f ∉ validFields (fields d))
        /\ (control f ∉ map control (validFields (fields d))))
  /\ (let f := {| name := js " "; type := text; label := js " "; rules := [];
                  id := None |} in
      let d := {| fields := [f]; resolver := zod; uiLib := shadcn |} in
      payload d = Some (payloadOf d)
      /\ blank (name f) = true
      /\ validFields (fields d) = []
      /\ render (fields d) = Placeholder).
Proof.
  split_and!.
  - intros d. unfold payload. rewrite zodResolver_schema.
    assert (Hiff : formIssues d = []
                   <-> Forall (fun g => (1 <= jslength (name g))%nat
                                        /\ (1 <= jslength (label g))%nat) (fields d)).
    { rewrite formIssues_nil. apply Forall_iff. intros g. unfold jslength.
      destruct (name g), (label g); cbn; intuition (try congruence; try lia). }
    destruct (formIssues d) eqn:Hi.
    + split; [intros _; by apply Hiff | by eauto].
    + split; [by intros [? ?] | intros H; by apply Hiff in H].
  - intros d f Hf Hb.
    assert (Hout : forall g, g ∈ validFields (fields d) -> blank (name g) = false).
    { intros g [_ Hg]%elem_of_validFields. rewrite trim_nil_iff in Hg.
      by destruct (blank (name g)). }
    split.
    + intros Hin. apply Hout in Hin. congruence.
    + rewrite list_elem_of_In, in_map_iff. intros [g [Hc Hg]].
      apply list_elem_of_In, Hout in Hg.
      assert (name g = name f) as Hn by exact (f_equal registered Hc).
      congruence.
  - by vm_compute.
Qed.

Lemma blank_name_is_exported_but_not_previewed_witness :
  let f := {| name := js " "; type := text; label := js "Email"; rules := [];
              id := None |} in
  f ∉ validFields [seedField; f].
Proof.
  intros f.
  apply (proj1 (proj2 blank_name_is_exported_but_not_previewed))
    with (d := {| fields := [seedField; f]; resolver := zod; uiLib := shadcn |}).
  - apply list_elem_of_In. right. left. reflexivity.
  - reflexivity.
Defined.

(** ** The field array *)

Lemma delete_snoc {A} (l : list A) (x : A) : delete (length l) (l ++ [x]) = l.
Proof. induction l as [|y l IH]; [done|]. simpl. f_equal. exact IH. Qed.

(** C7: appending any field and then removing the row at the last index
    gives back the fields the sequence had, with the same name, type,
    label and rules, in the same order (the values of the form are as
    before); the identity minted for the appended row is spent, so the
    store is not the one before. *)
Theorem append_then_remove_last_restores_content (st : Store) (f : Field) :
  let st' := append f st in
  let lastIndex := (length (rows st') - 1)%nat in
  map row (rows st') = map row (rows st) ++ [f]
  /\ map row (rows (remove lastIndex st')) = map row (rows st)
  /\ getValues (remove lastIndex st') = getValues st
  /\ minted (remove lastIndex st') = S (minted st).
Proof.
  cbv zeta. unfold remove, append. cbn [rows minted].
  rewrite length_app. cbn [length].
  replace (length (rows st) + 1 - 1)%nat with (length (rows st)) by lia.
  destruct (Nat.ltb_spec (length (rows st)) (length (rows st) + 1)) as [_|?]; [|lia].
  unfold getValues. cbn [rows resolverKind uiLibKind minted].
  rewrite delete_snoc, map_app. done.
Qed.

Lemma lookup_delete_shift {A} (l : list A) (p j : nat) :
  delete p l !! j = l !! (if decide (j < p)%nat then j else S j).
Proof.
  case_decide.
  - by apply list_lookup_delete_lt.
  - apply list_lookup_delete_ge. lia.
Qed.

(** C8: removing at a position that is not an index of the sequence does
    nothing: the store, and so the sequence of fields, is the one before,
    and nothing is raised ([remove] is a total function). A removal in
    range deletes the one row at the position and keeps every other row,
    with its identity and its content, in order. *)
Theorem remove_out_of_range_is_noop (st : Store) (position : nat) :
  ((length (rows st) <= position)%nat ->
     remove position st = st /\ getValues (remove position st) = getValues st)
  /\ ((position < length (rows st))%nat ->
        rows (remove position st) = delete position (rows st)
        /\ length (rows (remove position st)) = (length (rows st) - 1)%nat
        /\ (forall j, rows (remove position st) !! j
                      = rows st !! (if decide (j < position)%nat then j else S j))
        /\ (forall r, r ∈ rows (remove position st) -> r ∈ rows st)).
Proof.
  unfold remove. split; intros Hp.
  - destruct (Nat.ltb_spec position (length (rows st))) as [?|_]; [lia|]. done.
  - destruct (Nat.ltb_spec position (length (rows st))) as [_|?]; [|lia].
    cbn [rows]. split_and!.
    + done.
    + rewrite length_delete; [done|]. by apply lookup_lt_is_Some_2.
    + intros j. apply lookup_delete_shift.
    + intros r Hr. apply list_elem_of_lookup in Hr as [j Hj].
      rewrite lookup_delete_shift in Hj. by eapply list_elem_of_lookup_2.
Qed.

Lemma remove_out_of_range_is_noop_witness :
  remove 1 initial = initial
  /\ rows (remove 0 (append blankField initial))
     = [{| identity := 1; row := blankField |}].
Proof.
  split.
  - apply (proj1 (remove_out_of_range_is_noop initial 1)). cbn. lia.
  - apply (proj2 (remove_out_of_range_is_noop (append blankField initial) 0)).
    cbn. lia.
Defined.

(** ** The default values of the preview *)

Lemma lookup_fold_defaults (l : list Field) (m : gmap jsstring jsstring) (k : jsstring) :
  fold_left (fun acc field => assign acc (name field) []) l m !! k
  = if decide (k = js "__proto__") then m !! k
    else if decide (k ∈ map name l) then Some [] else m !! k.
Proof.
  revert m. induction l as [|f l IH]; intros m; cbn [fold_left map].
  - case_decide; [done|]. case_decide as Hnil; [by apply elem_of_nil in Hnil | done].
  - rewrite IH. unfold assign.
    destruct (decide (k = name f)) as [->|Hne].
    + repeat case_decide; try done;
        try (exfalso;
             match goal with
             | H : _ ∉ _ :: _ |- _ => apply H; apply elem_of_cons; by left
             end).
      by rewrite lookup_insert_eq.
    + assert (Hcons : k ∈ name f :: map name l <-> k ∈ map name l).
      { rewrite elem_of_cons. intuition. }
      repeat case_decide; try done; try (by apply lookup_insert_ne);
        exfalso; intuition.
Qed.

Lemma lookup_defaultValues (l : list Field) (k : jsstring) :
  GeneratedPreview.defaultValues l !! k
  = if decide (k = js "__proto__") then None
    else if decide (k ∈ map name l) then Some [] else None.
Proof.
  unfold GeneratedPreview.defaultValues. rewrite lookup_fold_defaults, lookup_empty.
  by repeat case_decide.
Qed.

Lemma dom_defaultValues (l : list Field) :
  dom (GeneratedPreview.defaultValues l)
  = list_to_set (map name l) ∖ {[js "__proto__"]}.
Proof.
  apply set_eq. intros k.
  rewrite elem_of_dom, lookup_defaultValues, elem_of_difference,
    elem_of_list_to_set, elem_of_singleton.
  repeat case_decide; split; intros Hk;
    first [ by destruct Hk | by eauto | by destruct Hk as [? ?]; eauto ].
Qed.

Lemma size_defaultValues_le (l : list Field) :
  (size (GeneratedPreview.defaultValues l)
   <= size (list_to_set (map name l) : gset jsstring))%nat.
Proof.
  rewrite <- size_dom, dom_defaultValues. apply subseteq_size.
  intros k [? _]%elem_of_difference. done.
Qed.

Lemma size_list_to_set_le (l : list jsstring) :
  (size (list_to_set l : gset jsstring) <= length l)%nat.
Proof.
  induction l as [|x l IH]; [done|].
  rewrite list_to_set_cons, size_union_alt, size_singleton. cbn [length].
  assert (Hsub : list_to_set l ∖ {[x]} ⊆ (list_to_set l : gset jsstring)).
  { intros k [? _]%elem_of_difference. done. }
  apply subseteq_size in Hsub. lia.
Qed.

Lemma size_list_to_set_lt (l : list jsstring) (i j : nat) (x : jsstring) :
  i <> j -> l !! i = Some x -> l !! j = Some x ->
  (size (list_to_set l : gset jsstring) < length l)%nat.
Proof.
  revert i j. induction l as [|y l IH]; intros i j Hij Hi Hj; [done|].
  cbn [length]. destruct (decide (y ∈ l)) as [Hin|Hout].
  - rewrite list_to_set_cons.
    assert ({[y]} ∪ list_to_set l = (list_to_set l : gset jsstring)) as ->.
    { apply set_eq. intros k. rewrite elem_of_union, elem_of_singleton.
      split; [|by right]. intros [->|?]; [|done]. by apply elem_of_list_to_set. }
    pose proof (size_list_to_set_le l). lia.
  - destruct i as [|i], j as [|j]; try done.
    + injection Hi as ->. change (l !! j = Some x) in Hj.
      apply list_elem_of_lookup_2 in Hj. done.
    + injection Hj as ->. change (l !! i = Some x) in Hi.
      apply list_elem_of_lookup_2 in Hi. done.
    + assert (i <> j) by congruence.
      pose proof (IH i j ltac:(done) Hi Hj).
      rewrite list_to_set_cons, size_union, size_singleton; [lia|].
      apply disjoint_singleton_l. by rewrite elem_of_list_to_set.
Qed.

(** After the name of a row is changed in the editor, the default values
    recomputed for the preview (lines 58-64) hold the empty string under the
    new name, when it is neither blank nor [__proto__], and nothing under a
    name no field of the projection carries any more. *)
Lemma defaultValues_after_setName (st : Store) (idx : nat) (v old : jsstring) :
  (idx < length (rows st))%nat -> blank v = false -> v <> js "__proto__" ->
  let fs := validFields (fields (getValues (setName idx v st))) in
  GeneratedPreview.defaultValues fs !! v = Some []
  /\ (old ∉ map name fs -> GeneratedPreview.defaultValues fs !! old = None).
Proof.
  intros Hidx Hv Hproto fs. rewrite !lookup_defaultValues. split.
  - rewrite decide_False by done. rewrite decide_True; [done|].
    destruct (lookup_lt_is_Some_2 _ _ Hidx) as [r Hr].
    set (f := {| name := v; type := type (row r); label := label (row r);
                 rules := rules (row r); id := id (row r) |}).
    assert (Hf : f ∈ fs).
    { apply elem_of_validFields. split.
      - unfold getValues, setName. cbn [fields rows].
        apply list_elem_of_In, in_map_iff.
        exists {| identity := identity r; row := f |}. split; [done|].
        apply list_elem_of_In, list_elem_of_lookup. exists idx.
        by rewrite list_lookup_alter_eq, Hr.
      - rewrite trim_nil_iff. cbn [name f]. congruence. }
    apply list_elem_of_In, in_map_iff. exists f.
    by rewrite <- list_elem_of_In.
  - intros Hold. case_decide; [done|]. by rewrite decide_False.
Qed.


(** ** Further properties of the preview *)

Lemma validFields_nil_iff (l : list Field) :
  validFields l = [] <-> Forall (fun f => blank (name f) = true) l.
Proof.
  induction l as [|f l IH]; [by split|].
  rewrite validFields_cons, Forall_cons. destruct (blank (name f)) eqn:Hb.
  - rewrite IH. intuition.
  - split; [discriminate | intros [? _]; discriminate].
Qed.

Lemma render_form (l : list Field) :
  validFields l <> [] ->
  render l = PreviewForm (GeneratedPreview.defaultValues (validFields l))
                         (map control (validFields l)).
Proof. intros H. unfold render. by destruct (validFields l). Qed.

Lemma render_PreviewForm (l : list Field) initial controls :
  render l = PreviewForm initial controls ->
  validFields l <> []
  /\ initial = GeneratedPreview.defaultValues (validFields l)
  /\ controls = map control (validFields l).
Proof.
  unfold render. destruct (validFields l) eqn:Hv; cbn [length Nat.eqb]; [done|].
  intros [= <- <-]. done.
Qed.

(** X1: the preview shows the placeholder card exactly when every field has
    a blank name (in particular when there is no field); otherwise it shows a
    form with one input per field of a non-blank name, in the order of the
    fields, so never a form without inputs. *)
Theorem render_placeholder_iff_all_blank (previewSchema : list Field) :
  (render previewSchema = Placeholder
   <-> Forall (fun f => blank (name f) = true) previewSchema)
  /\ (forall initial controls,
        render previewSchema = PreviewForm initial controls ->
        controls = map control (validFields previewSchema)
        /\ (0 < length controls)%nat
        /\ length controls
           = length (List.filter (fun f => negb (blank (name f))) previewSchema)
        /\ exists f, f ∈ previewSchema /\ blank (name f) = false).
Proof.
  split.
  - rewrite <- validFields_nil_iff. unfold render.
    destruct (validFields previewSchema); by split.
  - intros initial controls H.
    apply render_PreviewForm in H as (Hne & _ & ->).
    split_and!; [done | | |].
    + rewrite length_map. destruct (validFields previewSchema); [done | cbn; lia].
    + rewrite length_map. unfold validFields. f_equal.
      apply filter_ext. intros f. apply truthy_trim.
    + destruct (validFields previewSchema) as [|f fs] eqn:Hv; [done|].
      exists f. assert (Hf : f ∈ validFields previewSchema) by (rewrite Hv; by left).
      apply elem_of_validFields in Hf as [? Hf]. split; [done|].
      rewrite trim_nil_iff in Hf. by destruct (blank (name f)).
Qed.

Lemma render_placeholder_iff_all_blank_witness :
  exists f, f ∈ [blankField; seedField] /\ blank (name f) = false.
Proof.
  apply (proj2 (render_placeholder_iff_all_blank [blankField; seedField])
           (GeneratedPreview.defaultValues [seedField]) [control seedField]).
  reflexivity.
Defined.

(** X2: in the form the preview renders, every input registered under a
    name other than [__proto__] has a default value, the empty string, and
    an input registered under [__proto__] has none; every default value is
    the empty string and belongs to the name of some input, and no default
    is kept under a blank name or under [__proto__]. *)
Theorem defaults_cover_registered_names
    (previewSchema : list Field) (initial : gmap jsstring jsstring)
    (controls : list Control) :
  render previewSchema = PreviewForm initial controls ->
  (forall c, c ∈ controls ->
     initial !! registered c
     = if decide (registered c = js "__proto__") then None else Some [])
  /\ (forall k v, initial !! k = Some v ->
        v = [] /\ blank k = false /\ k <> js "__proto__"
        /\ exists c, c ∈ controls /\ registered c = k).
Proof.
  intros H. apply render_PreviewForm in H as (_ & -> & ->). split.
  - intros c Hc. apply list_elem_of_In, in_map_iff in Hc as [f [<- Hf]].
    change (registered (control f)) with (name f).
    rewrite lookup_defaultValues. case_decide; [done|].
    rewrite decide_True; [done|]. apply list_elem_of_In, in_map, Hf.
  - intros k v Hk. rewrite lookup_defaultValues in Hk.
    case_decide as Hproto; [done|]. case_decide as Hin; [|done].
    injection Hk as <-.
    apply list_elem_of_In, in_map_iff in Hin as [f [<- Hf]].
    split_and!; [done | | done |].
    + apply list_elem_of_In, elem_of_validFields in Hf as [_ Hf].
      rewrite trim_nil_iff in Hf. by destruct (blank (name f)).
    + exists (control f). split; [|done]. by apply list_elem_of_In, in_map.
Qed.

Lemma defaults_cover_registered_names_witness :
  GeneratedPreview.defaultValues [seedField] !! registered (control seedField)
  = Some [].
Proof.
  apply (proj1 (defaults_cover_registered_names [seedField; blankField]
                  (GeneratedPreview.defaultValues [seedField]) [control seedField]
                  eq_refl) (control seedField)).
  by left.
Defined.

Lemma size_difference_singleton (X : gset jsstring) (k : jsstring) :
  k ∈ X -> size X = S (size (X ∖ {[k]})).
Proof.
  intros Hk. rewrite (union_difference_L {[k]} X) at 1
    by (by apply singleton_subseteq_l).
  rewrite size_union, size_singleton; [done|].
  apply disjoint_singleton_l. rewrite elem_of_difference, elem_of_singleton.
  by intros [_ ?].
Qed.

(** X3: the default values have as many entries as the projection has
    fields exactly when the names of the projection are pairwise distinct
    and none of them is [__proto__]. *)
Theorem defaultValues_size_iff_distinct_names (fs : list Field) :
  size (GeneratedPreview.defaultValues fs) = length fs
  <-> NoDup (map name fs) /\ js "__proto__" ∉ map name fs.
Proof.
  pose proof (size_defaultValues_le fs) as Hle.
  pose proof (size_list_to_set_le (map name fs)) as Hle'.
  rewrite length_map in Hle'. split.
  - intros Hsize. split.
    + apply NoDup_alt. intros i j x Hi Hj.
      destruct (decide (i = j)) as [|Hij]; [done|].
      pose proof (size_list_to_set_lt _ i j x Hij Hi Hj) as Hlt.
      rewrite length_map in Hlt. lia.
    + intros Hin. apply (elem_of_list_to_set (C := gset jsstring)) in Hin.
      apply size_difference_singleton in Hin.
      rewrite <- dom_defaultValues, size_dom in Hin. lia.
  - intros [Hnodup Hproto].
    rewrite <- size_dom, dom_defaultValues, <- (length_map name fs).
    rewrite <- (size_list_to_set (C := gset jsstring) (map name fs)) by done.
    f_equal. apply set_eq. intros k.
    rewrite elem_of_difference, elem_of_singleton, elem_of_list_to_set.
    split; [by intros [? _] | intros Hk; split; [done | congruence]].
Qed.

(** X19: when two rows of the projection carry the same name, other than
    [__proto__], the default values built for the preview hold one entry
    under that name, the empty string: their keys are the distinct names of
    the projection without [__proto__], fewer than its fields. The inputs
    of both rows are rendered and registered under that very name, the key
    of this entry, so that both show the one value the form holds under
    it. *)
Theorem duplicate_names_share_one_entry
    (previewSchema : list Field) (i j : nat) (f g : Field) :
  let fs := validFields previewSchema in
  fs !! i = Some f -> fs !! j = Some g -> i <> j -> name f = name g ->
  name f <> js "__proto__" ->
  render previewSchema
    = PreviewForm (GeneratedPreview.defaultValues fs) (map control fs)
  /\ dom (GeneratedPreview.defaultValues fs)
     = list_to_set (map name fs) ∖ {[js "__proto__"]}
  /\ (forall v, (name f, v) ∈ map_to_list (GeneratedPreview.defaultValues fs) <-> v = [])
  /\ (size (GeneratedPreview.defaultValues fs) < length fs)%nat
  /\ control f ∈ map control fs
  /\ control g ∈ map control fs
  /\ registered (control f) = name f
  /\ registered (control g) = name f
  /\ GeneratedPreview.defaultValues fs !! registered (control f) = Some []
  /\ (forall values,
        controlValue values (control f) = values !! name f
        /\ controlValue values (control g) = values !! name f).
Proof.
  intros fs Hf Hg Hij Hname Hproto.
  assert (Hin : forall k h, fs !! k = Some h -> name h ∈ map name fs).
  { intros k h Hh. apply list_elem_of_In, in_map, list_elem_of_In.
    by eapply list_elem_of_lookup_2. }
  assert (Hc : forall k h, fs !! k = Some h -> control h ∈ map control fs).
  { intros k h Hh. apply list_elem_of_In, in_map, list_elem_of_In.
    by eapply list_elem_of_lookup_2. }
  assert (Hmap : forall k h, fs !! k = Some h -> map name fs !! k = Some (name h)).
  { intros k h Hh. change (map name fs) with (name <$> fs).
    by rewrite list_lookup_fmap, Hh. }
  assert (Hentry : GeneratedPreview.defaultValues fs !! name f = Some []).
  { rewrite lookup_defaultValues, decide_False by done.
    rewrite decide_True; [done | by eapply Hin]. }
  split_and!.
  - unfold render. fold fs. destruct fs; [done | reflexivity].
  - apply dom_defaultValues.
  - intros v. rewrite elem_of_map_to_list, Hentry. split; congruence.
  - pose proof (size_defaultValues_le fs) as Hle.
    assert (Hlt : (size (list_to_set (map name fs) : gset jsstring)
                   < length (map name fs))%nat).
    { apply (size_list_to_set_lt _ i j (name f)); [done | by apply Hmap |].
      rewrite Hname. by apply Hmap. }
    rewrite length_map in Hlt. lia.
  - by eapply Hc.
  - by eapply Hc.
  - reflexivity.
  - cbn [registered control]. by rewrite Hname.
  - exact Hentry.
  - intros values. unfold controlValue. cbn [registered control]. by rewrite Hname.
Qed.

Lemma duplicate_names_share_one_entry_witness :
  GeneratedPreview.defaultValues (validFields [seedField; seedField])
  !! registered (control seedField) = Some [].
Proof.
  apply (duplicate_names_share_one_entry [seedField; seedField] 0 1 seedField seedField);
    [reflexivity | reflexivity | discriminate | reflexivity | by vm_compute].
Defined.

(** X4: the React key of a rendered row, [field.id || field.name], is never
    the empty string; it is the [id] of the field when the field has a
    non-empty one, and then stays the same when the field is renamed, and
    it is the name otherwise, and then follows the renaming. *)
Theorem control_key_of_valid_field (previewSchema : list Field) (f : Field) :
  f ∈ validFields previewSchema ->
  key (control f) <> []
  /\ (forall i, id f = Some i -> i <> [] ->
        key (control f) = i
        /\ forall v, key (control (Editor.withName v f)) = key (control f))
  /\ (id f = None \/ id f = Some [] ->
        key (control f) = name f
        /\ forall v, key (control (Editor.withName v f)) = v).
Proof.
  intros [_ Hf]%elem_of_validFields.
  assert (Hname : name f <> []).
  { intros Hn. apply Hf. by rewrite Hn. }
  unfold control, Editor.withName. cbn [key id name]. split_and!.
  - destruct (id f) as [[|c i]|]; done.
  - intros i -> Hi. destruct i; done.
  - intros [-> | ->]; done.
Qed.

Lemma control_key_of_valid_field_witness :
  key (control seedField) <> []
  /\ key (control (Editor.withName (js "mail") seedField)) = key (control seedField)
  /\ key (control (Editor.withName (js "mail") (Editor.withName (js "m") blankField)))
     = js "mail".
Proof.
  split_and!.
  - apply (control_key_of_valid_field [seedField] seedField). by left.
  - apply (proj1 (proj2 (control_key_of_valid_field [seedField] seedField
                           ltac:(by left))) (js "1") eq_refl ltac:(done)).
  - apply (proj2 (proj2 (control_key_of_valid_field
                           [Editor.withName (js "m") blankField]
                           (Editor.withName (js "m") blankField)
                           ltac:(by left))) (or_introl eq_refl)).
Defined.

(** ** Further properties of the export *)

Lemma validFields_app (l1 l2 : list Field) :
  validFields (l1 ++ l2) = validFields l1 ++ validFields l2.
Proof. apply List.filter_app. Qed.

Lemma fields_append (f : Field) (st : Store) :
  fields (getValues (append f st)) = fields (getValues st) ++ [f].
Proof. unfold getValues, append. cbn [fields rows]. apply map_app. Qed.

(** X5: appending a field puts it at the end of the projection when its
    name is not blank and leaves the projection as it is otherwise; so the
    button that appends the blank field never changes what the preview
    renders. *)
Theorem append_and_the_preview (st : Store) (f : Field) :
  validFields (fields (getValues (append f st)))
  = validFields (fields (getValues st)) ++ (if blank (name f) then [] else [f])
  /\ render (fields (getValues (append blankField st)))
     = render (fields (getValues st)).
Proof.
  split.
  - rewrite fields_append, validFields_app. f_equal.
    rewrite validFields_cons. by destruct (blank (name f)).
  - unfold render. rewrite fields_append, validFields_app.
    change (validFields [blankField]) with (@nil Field). by rewrite app_nil_r.
Qed.

Lemma lookup_fields_append_last (f : Field) (st : Store) :
  fields (getValues (append f st)) !! length (rows st) = Some f.
Proof.
  rewrite fields_append. unfold getValues. cbn [fields].
  rewrite <- (length_map row (rows st)). apply list_lookup_middle. done.
Qed.

(** X6: right after the blank field is appended the definition cannot be
    exported, whatever the other fields are: the export writes nothing and
    records, for the new row, both the error of its name and the error of
    its label. *)
Theorem export_after_append_blank_fails (st : Store) (w : Effects) :
  let st' := append blankField st in
  payload (getValues st') = None
  /\ (export st' w).2 = w
  /\ nameIssue (length (rows st)) ∈ errors (export st' w).1
  /\ labelIssue (length (rows st)) ∈ errors (export st' w).1.
Proof.
  intros st'.
  assert (Hin : forall x, x ∈ fieldIssues (length (rows st)) blankField ->
                          x ∈ formIssues (getValues st')).
  { intros x Hx. apply elem_of_formIssues.
    exists (length (rows st)), blankField. split; [|done].
    apply lookup_fields_append_last. }
  assert (Hbad : formIssues (getValues st') <> []).
  { intros Hnil. specialize (Hin (nameIssue (length (rows st)))).
    rewrite Hnil in Hin. eapply not_elem_of_nil, Hin. by left. }
  rewrite (export_invalid st' w Hbad). cbn [fst snd errors]. split_and!.
  - by apply payload_None.
  - done.
  - apply Hin. by left.
  - apply Hin. right. by left.
Qed.

Lemma length_concat_imap_fieldIssues (g : nat -> Field -> list ZodIssue)
    (fs : list Field) :
  (forall i f, length (g i f)
               = length (fieldIssues 0 f)) ->
  length (concat (imap g fs))
  = (length (List.filter (fun f => negb (truthy (name f))) fs)
     + length (List.filter (fun f => negb (truthy (label f))) fs))%nat.
Proof.
  revert g. induction fs as [|f fs IH]; intros g Hg; [done|].
  cbn [imap concat List.filter]. rewrite length_app, (IH (g ∘ S)), Hg
    by (intros; apply Hg).
  unfold fieldIssues, jslength.
  destruct (name f), (label f); cbn; lia.
Qed.

(** X7: the export records one error for every empty name and one for
    every empty label, and nothing else: the number of errors is the number
    of fields without a name plus the number of fields without a label. *)
Theorem number_of_structural_errors (st : Store) (w : Effects) :
  length (errors (export st w).1)
  = (length (List.filter (fun f => negb (truthy (name f))) (fields (getValues st)))
     + length (List.filter (fun f => negb (truthy (label f))) (fields (getValues st))))%nat.
Proof.
  assert (Hlen : length (formIssues (getValues st))
                 = (length (List.filter (fun f => negb (truthy (name f)))
                              (fields (getValues st)))
                    + length (List.filter (fun f => negb (truthy (label f)))
                                (fields (getValues st))))%nat).
  { unfold formIssues. apply length_concat_imap_fieldIssues.
    intros i f. unfold fieldIssues. by destruct (_ <? _)%nat, (_ <? _)%nat. }
  destruct (formIssues (getValues st)) as [|x issues] eqn:Hi.
  - rewrite export_valid by done. cbn [fst errors]. by rewrite <- Hlen.
  - rewrite export_invalid by (by rewrite Hi). cbn [fst errors].
    by rewrite <- Hlen, Hi.
Qed.

Lemma imap_agree {A B K} (key : A -> K) (g : nat -> A -> B) (l l' : list A) :
  (forall i x y, key x = key y -> g i x = g i y) ->
  map key l = map key l' -> imap g l = imap g l'.
Proof.
  revert g l'. induction l as [|x l IH]; intros g [|y l'] Hg Hkeys;
    try done.
  injection Hkeys as Hxy Hkeys. cbn [imap]. f_equal.
  - by apply Hg.
  - apply IH; [|done]. intros i. apply Hg.
Qed.

(** X8: the outcome of the structural validation depends on nothing but
    which names and which labels are empty: two definitions that agree on
    that, row by row, are rejected with the same errors or are both
    exported, whatever their types, rules, ids, resolvers and UI libraries
    and whatever the non-empty names and labels say. *)
Theorem validation_looks_at_emptiness_only (d d' : FormData) :
  map (fun f => (truthy (name f), truthy (label f))) (fields d)
  = map (fun f => (truthy (name f), truthy (label f))) (fields d') ->
  formIssues d = formIssues d'
  /\ (is_Some (payload d) <-> is_Some (payload d')).
Proof.
  intros Hsame.
  assert (Hissues : formIssues d = formIssues d').
  { unfold formIssues. f_equal.
    apply (imap_agree (fun f => (truthy (name f), truthy (label f)))); [|done].
    intros i f f' [= Hn Hl]. unfold fieldIssues, jslength.
    destruct (name f), (name f'), (label f), (label f');
      cbn [truthy] in Hn, Hl; try discriminate; reflexivity. }
  split; [done|]. unfold payload. rewrite !zodResolver_schema, Hissues.
  destruct (formIssues d'); split; intros [? ?]; by eauto.
Qed.

Lemma validation_looks_at_emptiness_only_witness :
  formIssues {| fields := [seedField]; resolver := zod; uiLib := shadcn |}
  = formIssues {| fields := [Editor.withRules [] (Editor.withName (js "x") seedField)];
                  resolver := joi; uiLib := mui |}.
Proof.
  apply (validation_looks_at_emptiness_only
           {| fields := [seedField]; resolver := zod; uiLib := shadcn |}
           {| fields := [Editor.withRules [] (Editor.withName (js "x") seedField)];
              resolver := joi; uiLib := mui |}).
  reflexivity.
Defined.

(** X9: an export writes to the clipboard exactly when it records no
    error, and then it writes one text and logs one line holding the same
    text; in both cases everything written or logged before is kept, the
    fields and the two choices of the store are as before, and exporting
    again from the resulting store gives the same store. *)
Theorem export_writes_iff_no_error (st : Store) (w : Effects) :
  (errors (export st w).1 = []
   <-> exists json, clipboard (export st w).2 = clipboard w ++ [json]
                    /\ console (export st w).2
                       = console w ++ [[js "✅ Сгенерировано и скопировано:"; json]])
  /\ (errors (export st w).1 <> [] <-> (export st w).2 = w)
  /\ getValues (export st w).1 = getValues st
  /\ (forall w', (export (export st w).1 w').1 = (export st w).1).
Proof.
  destruct (formIssues (getValues st)) as [|x issues] eqn:Hi.
  - rewrite export_valid by done. cbn [fst snd errors]. split_and!.
    + split; [intros _ | done]. eexists. unfold onSubmit. by cbn [clipboard console].
    + split; [done|]. unfold onSubmit. intros H.
      apply (f_equal (fun e => length (clipboard e))) in H.
      cbn [clipboard] in H. rewrite length_app in H. cbn in H. lia.
    + done.
    + intros w'. by rewrite export_valid by done.
  - assert (Hbad : formIssues (getValues st) <> []) by (by rewrite Hi).
    rewrite export_invalid by done. cbn [fst snd errors]. rewrite Hi. split_and!.
    + split; [done|]. intros [json [H _]].
      apply (f_equal (@length _)) in H. rewrite length_app in H. cbn in H. lia.
    + done.
    + done.
    + intros w'. rewrite export_invalid by done.
      cbn [fst rows resolverKind uiLibKind minted]. f_equal. exact Hi.
Qed.

(** ** Further properties of the strings *)

(** X10: a rule string in which [required] occurs keeps its input
    required whatever is written before and after it, and a rule string of
    fewer than eight code units never makes an input required. *)
Theorem required_survives_extension :
  (forall pre s post : jsstring,
     required (registerOptions s) = true ->
     required (registerOptions (pre ++ s ++ post)) = true)
  /\ (forall s : jsstring,
        (length s < 8)%nat -> required (registerOptions s) = false).
Proof.
  unfold registerOptions. cbn [required]. split.
  - intros pre s post. rewrite !orb_false_r, !includes_spec.
    intros [a [b ->]]. exists (pre ++ a), (b ++ post). by rewrite <- !app_assoc.
  - intros s Hs. rewrite orb_false_r.
    destruct (includes s (js "required")) eqn:Hi; [|done].
    apply includes_spec in Hi as [a [b ->]].
    rewrite !length_app in Hs. change (length (js "required")) with 8%nat in Hs. lia.
Qed.

Lemma required_survives_extension_witness :
  required (registerOptions (js "email() | " ++ js "required" ++ js "()")) = true
  /\ required (registerOptions (js "min(3)")) = false.
Proof.
  split.
  - apply (proj1 required_survives_extension). reflexivity.
  - apply (proj2 required_survives_extension).
    change (length (js "min(3)")) with 6%nat. lia.
Defined.

Lemma trimStart_head (s : jsstring) (c : N) (t : jsstring) :
  trimStart s = c :: t -> isWhiteSpace c = false.
Proof.
  induction s as [|a s IH]; cbn [trimStart]; [done|].
  destruct (isWhiteSpace a) eqn:Ha; [exact IH|]. by intros [= <- _].
Qed.

Lemma trimStart_fixed (s : jsstring) :
  (forall c t, s = c :: t -> isWhiteSpace c = false) -> trimStart s = s.
Proof.
  destruct s as [|c t]; [done|]. intros H. cbn [trimStart].
  by rewrite (H c t eq_refl).
Qed.

Lemma trimEnd_cut (s : jsstring) :
  exists post, s = trimEnd s ++ post /\ blank post = true.
Proof.
  destruct (trimStart_cut (rev s)) as [pre [Hs Hpre]].
  exists (rev pre). split; [|by rewrite blank_rev].
  unfold trimEnd. rewrite <- rev_app_distr, <- Hs. by rewrite rev_involutive.
Qed.

Lemma trimEnd_last (s t : jsstring) (c : N) :
  trimEnd s = t ++ [c] -> isWhiteSpace c = false.
Proof.
  unfold trimEnd. intros H. apply (f_equal (@rev _)) in H.
  rewrite rev_involutive, rev_app_distr in H. by apply trimStart_head in H.
Qed.

(** X11: [trim] cuts a blank prefix and a blank suffix off the string and
    nothing else; what is left neither starts nor ends with white space,
    and trimming it again changes nothing. *)
Theorem trim_strips_blank_ends (s : jsstring) :
  (exists pre post,
     s = pre ++ trim s ++ post /\ blank pre = true /\ blank post = true)
  /\ (forall c t, trim s = c :: t -> isWhiteSpace c = false)
  /\ (forall t c, trim s = t ++ [c] -> isWhiteSpace c = false)
  /\ trim (trim s) = trim s.
Proof.
  assert (Hhead : forall c t, trim s = c :: t -> isWhiteSpace c = false).
  { intros c t Ht. unfold trim in Ht.
    destruct (trimEnd_cut (trimStart s)) as [post [Hcut _]].
    rewrite Ht in Hcut. by apply trimStart_head in Hcut. }
  assert (Hlast : forall t c, trim s = t ++ [c] -> isWhiteSpace c = false).
  { intros t c Ht. by apply trimEnd_last in Ht. }
  split_and!; [|done|done|].
  - destruct (trimStart_cut s) as [pre [Hs Hpre]].
    destruct (trimEnd_cut (trimStart s)) as [post [Hcut Hpost]].
    exists pre, post. split_and!; [|done|done].
    unfold trim. by rewrite <- Hcut.
  - unfold trim at 1. rewrite (trimStart_fixed (trim s)) by done.
    unfold trimEnd. rewrite trimStart_fixed; [apply rev_involutive|].
    intros c t Hrev. apply (Hlast (rev t) c).
    by rewrite <- (rev_involutive (trim s)), Hrev.
Qed.

Lemma trim_strips_blank_ends_witness :
  isWhiteSpace 101 = false.
Proof.
  apply (proj1 (proj2 (trim_strips_blank_ends (js "  email ")))
           101 (js "mail")).
  reflexivity.
Defined.

(** ** The text of an export determines the payload *)

Import Reader.

Lemma hexValue_hexDigit (n : N) : n < 16 -> hexValue (JSON.hexDigit n) = Some n.
Proof.
  intros Hn. unfold hexValue, JSON.hexDigit.
  destruct (N.ltb_spec n 10).
  - replace ((48 <=? 48 + n) && (48 + n <=? 57)) with true
      by (symmetry; apply andb_true_iff; split; apply N.leb_le; lia).
    f_equal. lia.
  - replace ((48 <=? 87 + n) && (87 + n <=? 57)) with false
      by (symmetry; apply andb_false_iff; right; apply N.leb_gt; lia).
    replace ((97 <=? 87 + n) && (87 + n <=? 102)) with true
      by (symmetry; apply andb_true_iff; split; apply N.leb_le; lia).
    f_equal. lia.
Qed.

Lemma nibble_lt (c : N) : N.land c 15 < 16.
Proof.
  change 15 with (N.ones 4). rewrite N.land_ones. by apply N.mod_lt.
Qed.

Lemma nibbles_recompose (c : N) :
  c < 65536 ->
  4096 * N.land (N.shiftr c 12) 15 + 256 * N.land (N.shiftr c 8) 15
  + 16 * N.land (N.shiftr c 4) 15 + N.land c 15 = c.
Proof.
  intros Hc. change 15 with (N.ones 4). rewrite !N.land_ones, !N.shiftr_div_pow2.
  change (2 ^ 12) with 4096. change (2 ^ 8) with 256. change (2 ^ 4) with 16.
  pose proof (N.div_mod c 16 ltac:(done)).
  pose proof (N.div_mod (c / 16) 16 ltac:(done)).
  pose proof (N.div_mod (c / 16 / 16) 16 ltac:(done)).
  pose proof (N.div_mod (c / 16 / 16 / 16) 16 ltac:(done)).
  assert (c / 16 / 16 / 16 < 16).
  { apply N.Div0.div_lt_upper_bound. apply N.Div0.div_lt_upper_bound.
    apply N.Div0.div_lt_upper_bound. lia. }
  rewrite (N.mod_small (c / 16 / 16 / 16) 16) in * by done.
  replace (c / 256) with (c / 16 / 16) by (rewrite N.Div0.div_div; done).
  replace (c / 4096) with (c / 16 / 16 / 16) by (rewrite !N.Div0.div_div; done).
  rewrite (N.mod_small (c / 16 / 16 / 16) 16) by done.
  lia.
Qed.

Lemma readUnits_unicodeEscape (c : N) (t : jsstring) :
  c < 65536 -> readUnits (JSON.unicodeEscape c ++ t) = push c (readUnits t).
Proof.
  intros Hc. unfold JSON.unicodeEscape.
  cbn [app readUnits]. change (92 =? 34) with false. change (92 =? 92) with true.
  change (117 =? 117) with true. cbv iota.
  rewrite !hexValue_hexDigit by apply nibble_lt. cbv iota.
  by rewrite nibbles_recompose.
Qed.

Lemma readUnits_raw (c : N) (t : jsstring) :
  c <> 34 -> c <> 92 -> readUnits (c :: t) = push c (readUnits t).
Proof.
  intros H34 H92. cbn [readUnits].
  by rewrite (proj2 (N.eqb_neq c 34) H34), (proj2 (N.eqb_neq c 92) H92).
Qed.

Lemma readUnits_escapeUnit (c : N) (t : jsstring) :
  readUnits (JSON.escapeUnit c ++ t) = push c (readUnits t).
Proof.
  unfold JSON.escapeUnit.
  destruct (N.eqb_spec c 8) as [->|?]; [done|].
  destruct (N.eqb_spec c 9) as [->|?]; [done|].
  destruct (N.eqb_spec c 10) as [->|?]; [done|].
  destruct (N.eqb_spec c 12) as [->|?]; [done|].
  destruct (N.eqb_spec c 13) as [->|?]; [done|].
  destruct (N.eqb_spec c 34) as [->|?]; [done|].
  destruct (N.eqb_spec c 92) as [->|?]; [done|].
  destruct ((c <? 32) || JSON.isLeadSurrogate c || JSON.isTrailSurrogate c) eqn:He.
  - apply readUnits_unicodeEscape.
    apply orb_true_iff in He as [He|He]; [apply orb_true_iff in He as [He|He]|].
    + apply N.ltb_lt in He. lia.
    + apply andb_true_iff in He as [_ He]. apply N.leb_le in He. lia.
    + apply andb_true_iff in He as [_ He]. apply N.leb_le in He. lia.
  - by apply readUnits_raw.
Qed.

Lemma escapeUnits_cons (c d : N) (s : jsstring) :
  JSON.escapeUnits (c :: d :: s)
  = if JSON.isLeadSurrogate c && JSON.isTrailSurrogate d
    then c :: d :: JSON.escapeUnits s
    else JSON.escapeUnit c ++ JSON.escapeUnits (d :: s).
Proof. reflexivity. Qed.

Lemma readUnits_escapeUnits_aux (n : nat) (s rest : jsstring) :
  (length s <= n)%nat ->
  readUnits (JSON.escapeUnits s ++ 34 :: rest) = Some (s, rest).
Proof.
  revert s. induction n as [|n IH]; intros s Hn.
  - destruct s; [done | cbn in Hn; lia].
  - destruct s as [|c [|d s]]; [done| |].
    + cbn [JSON.escapeUnits]. by rewrite readUnits_escapeUnit.
    + rewrite escapeUnits_cons.
      destruct (JSON.isLeadSurrogate c && JSON.isTrailSurrogate d) eqn:Hpair.
      * apply andb_true_iff in Hpair as [Hc Hd].
        apply andb_true_iff in Hc as [Hc _]. apply N.leb_le in Hc.
        apply andb_true_iff in Hd as [Hd _]. apply N.leb_le in Hd.
        cbn [app]. rewrite !readUnits_raw by lia.
        rewrite IH by (cbn in Hn; lia). done.
      * rewrite <- app_assoc, readUnits_escapeUnit.
        rewrite IH by (cbn in Hn |- *; lia). done.
Qed.

Lemma readString_quote (s rest : jsstring) :
  readString (JSON.quote s ++ rest) = Some (s, rest).
Proof.
  unfold JSON.quote. cbn [app readString]. rewrite <- app_assoc.
  apply (readUnits_escapeUnits_aux (length s)). done.
Qed.

(** X12: the quoted form of a string can be read back, wherever it stands
    in a text: two quoted strings followed by anything are equal as texts
    only if the strings are equal and what follows is equal; so quoting
    loses nothing and no quoted string is the beginning of another. *)
Theorem quote_is_prefix_free (s s' rest rest' : jsstring) :
  JSON.quote s ++ rest = JSON.quote s' ++ rest' -> s = s' /\ rest = rest'.
Proof.
  intros H. apply (f_equal readString) in H.
  rewrite !readString_quote in H. by injection H.
Qed.

Lemma quote_is_prefix_free_witness :
  js "email" = js "email" /\ js ": x" = js ": x".
Proof.
  apply (quote_is_prefix_free (js "email") (js "email") (js ": x") (js ": x")).
  reflexivity.
Defined.

Lemma quote_cont (s s' rest rest' : jsstring) :
  JSON.quote s ++ rest = JSON.quote s' ++ rest' -> s = s' /\ rest = rest'.
Proof.
  intros H. apply (f_equal readString) in H.
  rewrite !readString_quote in H. by injection H.
Qed.

Lemma serialize_payloadField (f : Field) :
  JSON.serialize [32; 32] [32; 32; 32; 32] (payloadField f) = Some (fieldText f).
Proof. reflexivity. Qed.

Lemma serialize_fields (fs : list Field) :
  JSON.serialize [32; 32] [32; 32] (VArray (map payloadField fs))
  = Some (fieldsText fs).
Proof.
  change (JSON.serialize [32; 32] [32; 32] (VArray (map payloadField fs)))
    with (Some (JSON.wrap 91 93 [32; 32] [32; 32]
                  (map (fun item =>
                          match JSON.serialize [32; 32] [32; 32; 32; 32] item with
                          | Some t => t
                          | None => [110; 117; 108; 108]
                          end) (map payloadField fs)))).
  unfold fieldsText. do 2 f_equal. rewrite map_map. apply map_ext.
  intros f. by rewrite serialize_payloadField.
Qed.

Lemma serialize_object3 (k1 k2 k3 : jsstring) (v1 v2 v3 : value)
    (t1 t2 t3 : jsstring) :
  JSON.serialize [32; 32] [32; 32] v1 = Some t1 ->
  JSON.serialize [32; 32] [32; 32] v2 = Some t2 ->
  JSON.serialize [32; 32] [32; 32] v3 = Some t3 ->
  JSON.serialize [32; 32] [] (VObject [(k1, v1); (k2, v2); (k3, v3)])
  = Some (JSON.wrap 123 125 [32; 32] []
            [JSON.quote k1 ++ [58; 32] ++ t1;
             JSON.quote k2 ++ [58; 32] ++ t2;
             JSON.quote k3 ++ [58; 32] ++ t3]).
Proof.
  intros H1 H2 H3. cbn [JSON.serialize app].
  by rewrite H1, H2, H3.
Qed.

Lemma stringify_payloadOf (d : FormData) :
  JSON.stringify (payloadOf d) 2 = Some (exportText d).
Proof.
  unfold JSON.stringify, payloadOf.
  change (repeat 32 (Nat.min 2 10)) with [32; 32].
  apply serialize_object3; [apply serialize_fields | reflexivity | reflexivity].
Qed.

Lemma tail_eq (a : N) (l l' : jsstring) : a :: l = a :: l' -> l = l'.
Proof. by intros [= ->]. Qed.

(** Texts are compared from the left: equal code units are dropped, and a
    quoted string is read off both sides. *)
Ltac flatten := repeat (progress (rewrite <- ?app_assoc; cbn [app])).

Ltac strip H :=
  repeat match type of H with
         | _ :: _ = _ :: _ => apply tail_eq in H
         | JSON.quote _ ++ _ = JSON.quote _ ++ _ =>
             let E := fresh "E" in apply quote_cont in H as [E H]
         end.

Lemma fieldText_cont (f f' : Field) (rest rest' : jsstring) :
  fieldText f ++ rest = fieldText f' ++ rest' ->
  payloadField f = payloadField f' /\ rest = rest'.
Proof.
  unfold fieldText. cbn [JSON.wrap JSON.join]. flatten.
  intros H. strip H. unfold payloadField. split; [congruence | done].
Qed.

Lemma join_fieldTexts_cont (fs fs' : list Field) (rest rest' : jsstring) :
  fs <> [] -> fs' <> [] ->
  JSON.join [44; 10; 32; 32; 32; 32] (map fieldText fs) ++ 10 :: rest
  = JSON.join [44; 10; 32; 32; 32; 32] (map fieldText fs') ++ 10 :: rest' ->
  map payloadField fs = map payloadField fs' /\ rest = rest'.
Proof.
  revert fs'. induction fs as [|f [|g fs] IH]; intros [|f' [|g' fs']] Hne Hne' H;
    try done; cbn [map JSON.join] in H.
  - apply fieldText_cont in H as [Hf H]. apply tail_eq in H.
    cbn [map]. by rewrite Hf.
  - rewrite <- app_assoc in H. apply fieldText_cont in H as [_ H]. discriminate H.
  - rewrite <- app_assoc in H. apply fieldText_cont in H as [_ H]. discriminate H.
  - rewrite <- !app_assoc in H. apply fieldText_cont in H as [Hf H].
    cbn [app] in H. strip H.
    apply (IH (g' :: fs')) in H as [Hrest H]; [|done|done].
    split; [|done]. cbn [map] in Hrest |- *. by rewrite Hf, Hrest.
Qed.

Lemma fieldsText_cont (fs fs' : list Field) (rest rest' : jsstring) :
  fieldsText fs ++ rest = fieldsText fs' ++ rest' ->
  map payloadField fs = map payloadField fs' /\ rest = rest'.
Proof.
  unfold fieldsText.
  destruct fs as [|f fs], fs' as [|f' fs']; cbn [map JSON.wrap]; flatten; intros H.
  - strip H. done.
  - apply tail_eq in H. discriminate H.
  - apply tail_eq in H. discriminate H.
  - strip H.
    apply (join_fieldTexts_cont (f :: fs) (f' :: fs')) in H as [Hfs H]; [|done|done].
    strip H. done.
Qed.

Lemma exportText_inj (d d' : FormData) :
  exportText d = exportText d' -> payloadOf d = payloadOf d'.
Proof.
  unfold exportText. cbn [JSON.wrap JSON.join]. flatten. intros H. strip H.
  apply fieldsText_cont in H as [Hfs H]. strip H.
  unfold payloadOf. congruence.
Qed.

Lemma typeName_inj (t t' : FieldType) : typeName t = typeName t' -> t = t'.
Proof. destruct t, t'; intros H; try reflexivity; vm_compute in H; discriminate H. Qed.

Lemma resolverName_inj (r r' : ResolverKind) : resolverName r = resolverName r' -> r = r'.
Proof. destruct r, r'; intros H; try reflexivity; vm_compute in H; discriminate H. Qed.

Lemma uiLibName_inj (u u' : UiLibKind) : uiLibName u = uiLibName u' -> u = u'.
Proof. destruct u, u'; intros H; try reflexivity; vm_compute in H; discriminate H. Qed.

Lemma payloadField_inj (f f' : Field) :
  payloadField f = payloadField f' -> content f = content f'.
Proof.
  unfold payloadField, content. intros [= Hn Ht Hl Hr].
  apply typeName_inj in Ht. congruence.
Qed.

Lemma cons_inv {A} (x y : A) (l l' : list A) :
  x :: l = y :: l' -> x = y /\ l = l'.
Proof. by intros [= -> ->]. Qed.

Lemma payloadOf_inj (d d' : FormData) :
  payloadOf d = payloadOf d' ->
  map content (fields d) = map content (fields d')
  /\ resolver d = resolver d' /\ uiLib d = uiLib d'.
Proof.
  unfold payloadOf. intros [= Hfs Hr Hu].
  apply resolverName_inj in Hr. apply uiLibName_inj in Hu. split; [|done].
  revert Hfs. generalize (fields d'). induction (fields d) as [|f fs IH];
    intros [|f' fs'] H; try done.
  cbn [map] in H |- *. apply cons_inv in H as [Hf H].
  by rewrite (payloadField_inj _ _ Hf), (IH _ H).
Qed.

Lemma export_written (st : Store) (w : Effects) (json : jsstring) :
  clipboard (export st w).2 = clipboard w ++ [json] ->
  formIssues (getValues st) = [] /\ json = exportText (getValues st).
Proof.
  destruct (formIssues (getValues st)) as [|x issues] eqn:Hi.
  - rewrite export_valid by done. cbn [snd]. unfold onSubmit. cbv zeta.
    cbn [clipboard]. rewrite stringify_payloadOf. cbn [toText].
    intros H. apply app_inv_head in H.
    split; [done|]. by apply cons_inv in H as [-> _].
  - rewrite export_invalid by (by rewrite Hi). cbn [snd]. intros H.
    apply (f_equal (@length _)) in H. rewrite length_app in H. cbn in H. lia.
Qed.

(** X13: the text of an export determines what was exported: when two
    exports write the same text, the two definitions have the same number
    of fields with, row by row, the same name, type, label and rules, and
    the same resolver and UI library; only the ids of the rows can differ. *)
Theorem export_text_determines_definition
    (st st' : Store) (w w' : Effects) (json : jsstring) :
  clipboard (export st w).2 = clipboard w ++ [json] ->
  clipboard (export st' w').2 = clipboard w' ++ [json] ->
  map content (fields (getValues st)) = map content (fields (getValues st'))
  /\ resolverKind st = resolverKind st'
  /\ uiLibKind st = uiLibKind st'.
Proof.
  intros [_ ->]%export_written [_ H]%export_written.
  by apply exportText_inj, payloadOf_inj in H.
Qed.

Lemma export_text_determines_definition_witness :
  map content (fields (getValues initial))
  = map content (fields (getValues (remove 1 (append blankField initial)))).
Proof.
  apply (export_text_determines_definition
           initial (remove 1 (append blankField initial))
           {| clipboard := []; console := [] |}
           {| clipboard := []; console := [] |} seedJson);
    by vm_compute.
Defined.

(** ** The editor *)

Import Editor.

Lemma N_of_ascii_inj (a b : ascii) : N_of_ascii a = N_of_ascii b -> a = b.
Proof.
  intros H. apply (f_equal ascii_of_N) in H. by rewrite !ascii_N_embedding in H.
Qed.

Lemma map_N_of_ascii_inj (l l' : list ascii) :
  map N_of_ascii l = map N_of_ascii l' -> l = l'.
Proof.
  revert l'. induction l as [|a l IH]; intros [|b l'] H; try done.
  cbn [map] in H. apply cons_inv in H as [Ha H].
  by rewrite (N_of_ascii_inj _ _ Ha), (IH _ H).
Qed.

Lemma decimal_inj (n m : nat) : decimal n = decimal m -> n = m.
Proof.
  unfold decimal. intros H. apply map_N_of_ascii_inj in H.
  apply (f_equal string_of_list_ascii) in H.
  rewrite !string_of_list_ascii_of_string in H.
  apply (f_equal DecimalString.NilEmpty.uint_of_string) in H.
  rewrite !DecimalString.NilEmpty.usu in H. injection H as H.
  by apply DecimalNat.Unsigned.to_uint_inj.
Qed.

Lemma digits_no_dot (d : Decimal.uint) :
  46 ∉ map N_of_ascii (list_ascii_of_string (DecimalString.NilEmpty.string_of_uint d)).
Proof.
  induction d; cbn [DecimalString.NilEmpty.string_of_uint list_ascii_of_string map];
    [apply not_elem_of_nil | ..];
    (apply not_elem_of_cons; split; [by vm_compute | done]).
Qed.

Lemma split_at_dot (l l' r r' : jsstring) :
  46 ∉ l -> 46 ∉ l' -> l ++ 46 :: r = l' ++ 46 :: r' -> l = l' /\ r = r'.
Proof.
  revert l'. induction l as [|a l IH]; intros [|b l'] Hl Hl' H; cbn [app] in H.
  - by apply cons_inv in H as [_ ->].
  - apply cons_inv in H as [<- _]. exfalso. apply Hl'. by left.
  - apply cons_inv in H as [-> _]. exfalso. apply Hl. by left.
  - apply cons_inv in H as [-> H].
    apply not_elem_of_cons in Hl as [_ Hl]. apply not_elem_of_cons in Hl' as [_ Hl'].
    by destruct (IH l' Hl Hl' H) as [-> ->].
Qed.

Lemma attributeName_inj (a b : Attribute) : attributeName a = attributeName b -> a = b.
Proof. destruct a, b; intros H; try reflexivity; vm_compute in H; discriminate H. Qed.

Lemma path_inj (i j : nat) (a b : Attribute) : path i a = path j b -> i = j /\ a = b.
Proof.
  unfold path. intros H. apply app_inv_head in H.
  change (js ".") with [46] in H. cbn [app] in H.
  apply split_at_dot in H as [Hd Ha]; [|apply digits_no_dot..].
  split; [by apply decimal_inj | by apply attributeName_inj].
Qed.

(** X14: in the editor, the inputs and selects of the rows are bound to
    pairwise distinct paths: a path belongs to one row and one attribute
    only. The remove button of a row passes the index of that very row,
    which is in range, so that it removes this row and no other. *)
Theorem editor_rows_are_bound_to_their_own_row
    (st : Store) (i j : nat) (r r' : EditorRow) :
  editorRows st !! i = Some r -> editorRows st !! j = Some r' ->
  NoDup [nameInput r; labelInput r; typeSelect r; rulesInput r]
  /\ (forall p, p ∈ [nameInput r; labelInput r; typeSelect r; rulesInput r] ->
                p ∈ [nameInput r'; labelInput r'; typeSelect r'; rulesInput r'] ->
                i = j)
  /\ removeIndex r = i
  /\ (removeIndex r < length (rows st))%nat
  /\ rows (remove (removeIndex r) st) = delete i (rows st).
Proof.
  unfold editorRows. rewrite !list_lookup_imap. intros Hr Hr'.
  destruct (rows st !! i) as [x|] eqn:Hx; [|done].
  destruct (rows st !! j) as [y|] eqn:Hy; [|done].
  injection Hr as <-. injection Hr' as <-.
  cbn [nameInput labelInput typeSelect rulesInput removeIndex].
  assert (Hi : (i < length (rows st))%nat) by (by eapply lookup_lt_Some).
  split_and!; [| |done|done|].
  - repeat (apply NoDup_cons; split); [..|apply NoDup_nil_2];
      rewrite ?elem_of_cons, ?elem_of_nil; intros H;
      repeat (destruct H as [H|H]; [by apply path_inj in H as [_ ?]|]); done.
  - intros p Hp Hp'. rewrite !elem_of_cons, elem_of_nil in Hp, Hp'.
    destruct Hp as [->|[->|[->|[->|[]]]]];
      destruct Hp' as [H|[H|[H|[H|[]]]]]; by apply path_inj in H as [? _].
  - unfold remove. by destruct (Nat.ltb_spec i (length (rows st))); [|lia].
Qed.

Lemma editor_rows_are_bound_to_their_own_row_witness :
  rows (remove 1 (append blankField initial)) = delete 1%nat (rows (append blankField initial)).
Proof.
  apply (proj2 (proj2 (proj2 (proj2
           (editor_rows_are_bound_to_their_own_row (append blankField initial) 1 0
              {| rowKey := 1; nameInput := path 1 AName; labelInput := path 1 ALabel;
                 typeSelect := path 1 AType; rulesInput := path 1 ARules;
                 removeIndex := 1 |}
              {| rowKey := 0; nameInput := path 0 AName; labelInput := path 0 ALabel;
                 typeSelect := path 0 AType; rulesInput := path 0 ARules;
                 removeIndex := 0 |}
              eq_refl eq_refl))))).
Defined.







Lemma alter_snoc {A} (g : A -> A) (l : list A) (x : A) :
  alter g (length l) (l ++ [x]) = l ++ [g x].
Proof. induction l as [|y l IH]; [done|]. cbn. f_equal. exact IH. Qed.

(** X16: a definition that can be exported can be exported again once a
    field has been appended and given a name and a label: appending the
    blank field, then typing a non-empty name and a non-empty label into the
    new row, gives the fields as they were followed by the new field, which
    pass the structural validation, so that the export writes a text. *)
Theorem appended_row_filled_in_is_exportable (st : Store) (v l : jsstring) :
  is_Some (payload (getValues st)) -> v <> [] -> l <> [] ->
  let n := length (rows st) in
  let st' := setLabel n l (setName n v (append blankField st)) in
  fields (getValues st')
  = fields (getValues st)
    ++ [{| name := v; type := text; label := l; rules := []; id := None |}]
  /\ is_Some (payload (getValues st'))
  /\ (forall w, exists json, clipboard (export st' w).2 = clipboard w ++ [json]).
Proof.
  intros Hok Hv Hl n st'.
  assert (Hfields : fields (getValues st')
                    = fields (getValues st)
                      ++ [{| name := v; type := text; label := l; rules := [];
                             id := None |}]).
  { unfold st', setLabel, updateRow, setName, append, getValues, n.
    cbn [fields rows]. rewrite !alter_snoc, map_app. reflexivity. }
  assert (Hnil : formIssues (getValues st') = []).
  { apply formIssues_nil. rewrite Hfields. apply Forall_app. split.
    - apply formIssues_nil. destruct Hok as [data Hdata].
      by apply payload_Some in Hdata as [? _].
    - by apply Forall_singleton. }
  split_and!; [done | |].
  - exists (payloadOf (getValues st')). by apply payload_Some.
  - intros w. rewrite export_valid by done. eexists. unfold onSubmit.
    by cbn [snd clipboard].
Qed.

Lemma appended_row_filled_in_is_exportable_witness :
  is_Some (payload (getValues
             (setLabel 1 (js "Age") (setName 1 (js "age") (append blankField initial))))).
Proof.
  apply (appended_row_filled_in_is_exportable initial (js "age") (js "Age")).
  - eexists. by vm_compute.
  - by vm_compute.
  - by vm_compute.
Defined.

Lemma fields_setName (st : Store) (idx : nat) (v : jsstring) :
  fields (getValues (setName idx v st))
  = alter (withName v) idx (fields (getValues st)).
Proof.
  unfold getValues, setName. cbn [fields rows].
  generalize (rows st). intros l. revert idx.
  induction l as [|r l IH]; intros [|idx]; cbn; try done.
  f_equal. apply IH.
Qed.

(** X17: typing a name into the row at an index of the editor changes the
    name of that field and of no other; when the new name is not blank the
    field is in the projection, and the default values recomputed for the
    preview hold the empty string under the new name, unless the name is
    [__proto__], under which they hold nothing; when the new name is blank
    the field is not in the projection. *)
Theorem renaming_a_row_and_the_preview (st : Store) (idx : nat) (f : Field)
    (v : jsstring) :
  fields (getValues st) !! idx = Some f ->
  let fs := fields (getValues (setName idx v st)) in
  fs = <[idx := withName v f]> (fields (getValues st))
  /\ (forall j, j <> idx -> fs !! j = fields (getValues st) !! j)
  /\ (blank v = false ->
        withName v f ∈ validFields fs
        /\ GeneratedPreview.defaultValues (validFields fs) !! v
           = if decide (v = js "__proto__") then None else Some [])
  /\ (blank v = true -> withName v f ∉ validFields fs).
Proof.
  intros Hf fs.
  assert (Hfs : fs = <[idx := withName v f]> (fields (getValues st))).
  { unfold fs. rewrite fields_setName. apply list_eq. intros j.
    destruct (decide (j = idx)) as [->|Hj].
    - rewrite list_lookup_alter_eq, Hf. cbn.
      symmetry. apply list_lookup_insert_eq. by eapply lookup_lt_Some.
    - by rewrite list_lookup_alter_ne, list_lookup_insert_ne. }
  assert (Hin : withName v f ∈ fs).
  { rewrite Hfs. apply list_elem_of_lookup. exists idx.
    apply list_lookup_insert_eq. by eapply lookup_lt_Some. }
  split_and!.
  - done.
  - intros j Hj. rewrite Hfs. by apply list_lookup_insert_ne.
  - intros Hv.
    assert (Hvalid : withName v f ∈ validFields fs).
    { apply elem_of_validFields. split; [done|].
      rewrite trim_nil_iff. cbn [name withName]. congruence. }
    split; [done|]. rewrite lookup_defaultValues. case_decide; [done|].
    rewrite decide_True; [done|].
    apply list_elem_of_In, in_map_iff. exists (withName v f).
    split; [done | by apply list_elem_of_In].
  - intros Hv [_ Hvalid]%elem_of_validFields. apply Hvalid.
    by apply trim_nil_iff.
Qed.

Lemma renaming_a_row_and_the_preview_witness :
  (withName [] seedField ∉ validFields (fields (getValues (setName 0 [] initial))))
  /\ (withName (js "mail") seedField
      ∈ validFields (fields (getValues (setName 0 (js "mail") initial))))
  /\ GeneratedPreview.defaultValues
       (validFields (fields (getValues (setName 0 (js "__proto__") initial))))
     !! js "__proto__" = None.
Proof.
  split_and!.
  - apply (proj2 (proj2 (proj2 (renaming_a_row_and_the_preview
                                  initial 0 seedField [] eq_refl)))).
    reflexivity.
  - apply (proj1 (proj2 (proj2 (renaming_a_row_and_the_preview
                                  initial 0 seedField (js "mail") eq_refl)))).
    reflexivity.
  - apply (proj1 (proj2 (proj2 (renaming_a_row_and_the_preview
                                  initial 0 seedField (js "__proto__") eq_refl)))).
    reflexivity.
Defined.

(** X18: removing a row takes its field, and nothing else, out of the
    projection: with the projection of the fields before the row and the
    projection of the fields after it, the projection before the removal is
    the first, the removed field when its name is not blank, and the second,
    and the projection after the removal is the first followed by the
    second. So no input is added or reordered, the projection is the same
    when the removed name is blank and one field shorter otherwise. *)
Theorem remove_and_the_preview (st : Store) (i : nat) (r : Row) :
  rows st !! i = Some r ->
  let before := validFields (fields (getValues st)) in
  let after := validFields (fields (getValues (remove i st))) in
  let front := validFields (take i (fields (getValues st))) in
  let back := validFields (drop (S i) (fields (getValues st))) in
  fields (getValues (remove i st)) = delete i (fields (getValues st))
  /\ before = front ++ (if blank (name (row r)) then [] else [row r]) ++ back
  /\ after = front ++ back
  /\ sublist after before
  /\ (blank (name (row r)) = true -> after = before)
  /\ (blank (name (row r)) = false -> S (length after) = length before).
Proof.
  intros Hr before after front back.
  assert (Hi : (i < length (rows st))%nat) by (by eapply lookup_lt_Some).
  assert (Hf : fields (getValues st) !! i = Some (row r)).
  { unfold getValues. cbn [fields]. change (map row (rows st)) with (row <$> rows st).
    by rewrite list_lookup_fmap, Hr. }
  assert (Hdel : fields (getValues (remove i st)) = delete i (fields (getValues st))).
  { unfold remove, getValues.
    destruct (Nat.ltb_spec i (length (rows st))); [|lia]. cbn [fields rows].
    change (map row) with (fmap (M := list) row). by rewrite list_fmap_delete. }
  assert (Hbefore : before = front ++ (if blank (name (row r)) then [] else [row r])
                             ++ back).
  { unfold before, front, back.
    rewrite <- (take_drop_middle (fields (getValues st)) i (row r) Hf) at 1.
    rewrite validFields_app, validFields_cons. by destruct (blank (name (row r))). }
  assert (Hafter : after = front ++ back).
  { unfold after, front, back.
    by rewrite Hdel, delete_take_drop, validFields_app. }
  split_and!; [done | done | done | | |].
  - rewrite Hbefore, Hafter. apply sublist_app; [done|]. by apply sublist_inserts_l.
  - rewrite Hbefore, Hafter. by intros ->.
  - rewrite Hbefore, Hafter. intros ->. rewrite !length_app. cbn [length]. lia.
Qed.

Lemma remove_and_the_preview_witness :
  validFields (fields (getValues (remove 0 (append blankField initial)))) = []
  /\ validFields (fields (getValues (remove 1 (append blankField initial))))
     = [seedField].
Proof.
  split.
  - apply (proj1 (proj2 (proj2 (remove_and_the_preview (append blankField initial) 0
                                  {| identity := 0; row := seedField |} eq_refl)))).
  - apply (proj1 (proj2 (proj2 (remove_and_the_preview (append blankField initial) 1
                                  {| identity := 1; row := blankField |} eq_refl)))).
Defined.
